(** * js-bugz: canonical issue numbering

    A shallow embedding of [src/index.ts]: the canonical ID allocator
    ([findGaps] and the assignment loop of [State.initialise]), the body and
    metadata codecs ([parseIssueBody], [printIssueBody], [parseMetadata],
    [printMetadata]), the cache synchroniser ([State.getIssuesforRepo]),
    [flatten] and the handler mounted on [/b].

    Conventions of the embedding.
    - A JavaScript [number] that holds an identifier or a length is a [Z];
      [NaN] is kept apart where the source can produce it ([parseInt]).
      Fractions and the rounding of doubles are outside the model: a [Z]
      stands for the number of the program up to [2^53 - 1], where every
      integer is a double, and the statements that depend on the text or
      the value of a larger number bound it.
    - [null] and [undefined] are [None].
    - A string is a [string] of bytes.
    - An array the source updates in place is passed in and handed back. *)

From Stdlib Require Import ZArith List Bool Lia Sorted Permutation.
From Stdlib Require Import Strings.String Strings.Ascii.
From Stdlib Require Import Numbers.DecimalString Numbers.DecimalPos.
Import ListNotations.

Open Scope string_scope.
Open Scope list_scope.
Open Scope Z_scope.

(** ** Data model *)

Record IssueMetadata : Type := { canonicalId : option Z }.

Definition newMetadata : IssueMetadata := {| canonicalId := None |}.

Record IssueBody : Type := {
  sections : list string;
  metadata : IssueMetadata
}.

(** An entry of the tracker's listing, with the fields the program reads.
    The body is a string, as the listing's type declares it. *)
Record RawIssue : Type := {
  number : Z;
  raw_body : string;
  pull_request : bool
}.

(** The tracker client.  The only call the modelled code makes on it is the
    paginated [issues.listForRepo]; [client_id] tells clients apart. *)
Record GitHubAPI : Type := {
  client_id : Z;
  listForRepo : string -> string -> list RawIssue
}.

Record Issue : Type := {
  owner : string;
  repo : string;
  issueId : Z;
  body : IssueBody
}.

Record IssueContext : Type := {
  github : GitHubAPI;
  issue : Issue
}.

(** ** JavaScript helpers *)

(** [Number.prototype.toString] on an integer: its decimal digits.  This
    is the text the program writes for integers below [10^21] in absolute
    value, digit for digit up to [2^53 - 1]; from [10^21] on the program
    writes an exponent form, which is not modelled, and the statements
    about a written number bound it. *)
Definition toString (n : Z) : string := NilEmpty.string_of_int (Z.to_int n).

(** [x || 0] on a [number | null]. *)
Definition or_zero (x : option Z) : Z :=
  match x with
  | Some n => n
  | None => 0
  end.

(** Truthiness of a [number | null]: [null] and [0] are falsy. *)
Definition truthy (x : option Z) : bool :=
  match x with
  | Some n => negb (n =? 0)
  | None => false
  end.

(** [a < b] where [b] may be [undefined]: the comparison is then false. *)
Definition lt_undef (a : Z) (b : option Z) : bool :=
  match b with
  | Some v => a <? v
  | None => false
  end.

(** [a == b] where [b] may be [undefined]. *)
Definition eq_undef (a : Z) (b : option Z) : bool :=
  match b with
  | Some v => a =? v
  | None => false
  end.

(** [array[array.length - 1]]. *)
Fixpoint last_elem (array : list Z) : option Z :=
  match array with
  | [] => None
  | [x] => Some x
  | _ :: rest => last_elem rest
  end.

(** [Array.prototype.sort] without a comparator: the elements are ordered by
    their string forms, compared code unit by code unit. *)
Fixpoint sort_insert (x : Z) (sorted : list Z) : list Z :=
  match sorted with
  | [] => [x]
  | y :: rest =>
      if String.ltb (toString y) (toString x)
      then y :: sort_insert x rest
      else x :: sorted
  end.

Definition default_sort (array : list Z) : list Z :=
  fold_right sort_insert [] array.

(** ** Canonical ID allocator *)

Module Allocator.

(** The [while] loop of [findGaps]: [array.shift()] as long as the first
    element is below 1.  The array is the caller's. *)
Fixpoint shift_leading (array : list Z) : list Z :=
  match array with
  | [] => []
  | x :: rest => if x <? 1 then shift_leading rest else array
  end.

(** The [for] loop of [findGaps], from the state [(i, arrayIndex, gaps)].
    [fuel] bounds the number of iterations. *)
Fixpoint scan (fuel : nat) (array : list Z) (maxGaps : Z)
         (i : Z) (arrayIndex : nat) (gaps : list Z) : list Z :=
  match fuel with
  | O => gaps
  | S fuel' =>
      if lt_undef i (last_elem array) then
        let arrayIndex' :=
          if eq_undef i (nth_error array arrayIndex) then S arrayIndex else arrayIndex in
        let gaps' :=
          if eq_undef i (nth_error array arrayIndex) then gaps else gaps ++ [i] in
        if Z.of_nat (List.length gaps') =? maxGaps then gaps'
        else scan fuel' array maxGaps (i + 1) arrayIndex' gaps'
      else gaps
  end.

(** Iterations the loop can make when it starts at [i = 1]. *)
Definition scan_fuel (array : list Z) : nat := Z.to_nat (or_zero (last_elem array)).

(** [findGaps(array, maxGaps)]: the caller's array as the call leaves it, and
    the returned gaps. *)
Definition findGaps (array : list Z) (maxGaps : Z) : list Z * list Z :=
  let array' := shift_leading array in
  (array', scan (scan_fuel array') array' maxGaps 1 0 []).

(** The value [findGaps] returns. *)
Definition gaps_of (array : list Z) (maxGaps : Z) : list Z :=
  snd (findGaps array maxGaps).

End Allocator.

(** ** [State.initialise], from the aggregated contexts on *)

Module Initialise.

Import Allocator.

Definition context_id (context : IssueContext) : option Z :=
  canonicalId (metadata (body (issue context))).

(** [context.issue.body.metadata.canonicalId = nextId]. *)
Definition set_id (context : IssueContext) (nextId : Z) : IssueContext :=
  {| github := github context;
     issue := {| owner := owner (issue context);
                 repo := repo (issue context);
                 issueId := issueId (issue context);
                 body := {| sections := sections (body (issue context));
                            metadata := {| canonicalId := Some nextId |} |} |} |}.

Definition knownIds (contexts : list IssueContext) : list Z :=
  default_sort
    (filter (fun m => negb (m =? 0))
       (map (fun context => or_zero (context_id context)) contexts)).

(** State of the assignment loop. *)
Record AssignState : Type := {
  st_gaps : list Z;
  st_nextId : Z
}.

(** One unnumbered issue: [nextId = gaps[gaps.length - 1]; gaps.pop()] when
    there is a gap left, [nextId++] otherwise. *)
Definition next_id (st : AssignState) : AssignState :=
  match st_gaps st with
  | [] => {| st_gaps := []; st_nextId := st_nextId st + 1 |}
  | _ :: _ =>
      {| st_gaps := removelast (st_gaps st);
         st_nextId := List.last (st_gaps st) 0 |}
  end.

(** The [for (let context of contexts)] loop. *)
Fixpoint assign (contexts : list IssueContext) (st : AssignState)
  : list IssueContext * AssignState :=
  match contexts with
  | [] => ([], st)
  | context :: rest =>
      if truthy (context_id context) then
        let (rest', st') := assign rest st in (context :: rest', st')
      else
        let st1 := next_id st in
        let (rest', st') := assign rest st1 in
        (set_id context (st_nextId st1) :: rest', st')
  end.

(** The contexts as [initialise] leaves them. *)
Definition initialise (contexts : list IssueContext) : list IssueContext :=
  match contexts with
  | [] => contexts
  | _ =>
      let gaps := gaps_of (knownIds contexts) (Z.of_nat (List.length contexts)) in
      fst (assign contexts {| st_gaps := gaps; st_nextId := 0 |})
  end.

End Initialise.

(** ** Strings *)

Module Text.

Definition CR : ascii := ascii_of_nat 13.
Definition LF : ascii := ascii_of_nat 10.
Definition dquote : ascii := ascii_of_nat 34.
Definition squote : ascii := ascii_of_nat 39.
Definition CRLF : string := String CR (String LF "").

Definition code (c : ascii) : Z := Z.of_N (N_of_ascii c).

Definition between (lo hi : Z) (c : ascii) : bool :=
  (lo <=? code c) && (code c <=? hi).

Definition is_upper (c : ascii) : bool := between 65 90 c.
Definition is_lower (c : ascii) : bool := between 97 122 c.
Definition is_digit (c : ascii) : bool := between 48 57 c.
Definition is_alpha (c : ascii) : bool := is_upper c || is_lower c.

Definition to_lower (c : ascii) : ascii :=
  if is_upper c then ascii_of_N (N_of_ascii c + 32) else c.

Definition to_upper (c : ascii) : ascii :=
  if is_lower c then ascii_of_N (N_of_ascii c - 32) else c.

(** [s + c]. *)
Definition snoc (s : string) (c : ascii) : string := (s ++ String c "")%string.

(** [String.prototype.split(sep)] for a non-empty [sep]: the pieces between
    the occurrences of [sep], found from left to right without overlap.
    [skip] counts the characters of a found separator still to pass, [cur] is
    the piece being read. *)
Fixpoint split_go (sep : string) (skip : nat) (cur : string) (s : string)
  : list string :=
  match s with
  | EmptyString => [cur]
  | String c rest =>
      match skip with
      | S k => split_go sep k cur rest
      | O =>
          if prefix sep s
          then cur :: split_go sep (pred (String.length sep)) "" rest
          else split_go sep O (snoc cur c) rest
      end
  end.

Definition split (sep s : string) : list string := split_go sep 0 "" s.

(** [Array.prototype.join(sep)]. *)
Definition join (sep : string) (parts : list string) : string :=
  String.concat sep parts.

(** A non-empty string is truthy. *)
Definition nonempty (s : string) : bool :=
  match s with
  | EmptyString => false
  | String _ _ => true
  end.

(** *** [parseInt] with no radix argument *)

Inductive js_number : Type :=
| NaN
| Num (n : Z).

(** The ASCII characters [parseInt] skips at the start.  It also skips
    white space outside ASCII (the no-break space and others), which is not
    modelled: the statements about [parseInt] on a text that is not written
    by the program are about ASCII text.  The value read is exact here; the
    program rounds it to a double, which changes nothing up to [2^53 - 1]. *)
Definition str_whitespace (c : ascii) : bool :=
  between 9 13 c || (code c =? 32).

Fixpoint trim_start (s : string) : string :=
  match s with
  | EmptyString => EmptyString
  | String c rest => if str_whitespace c then trim_start rest else s
  end.

Definition digit_value (radix : Z) (c : ascii) : option Z :=
  let raw :=
    if is_digit c then Some (code c - 48)
    else if is_lower c then Some (code c - 87)
    else if is_upper c then Some (code c - 55)
    else None in
  match raw with
  | Some d => if d <? radix then Some d else None
  | None => None
  end.

(** Value of the longest prefix of digits, read onto [acc]. *)
Fixpoint digits_value (radix acc : Z) (s : string) : Z :=
  match s with
  | EmptyString => acc
  | String c rest =>
      match digit_value radix c with
      | Some d => digits_value radix (acc * radix + d) rest
      | None => acc
      end
  end.

Definition strip_sign (s : string) : Z * string :=
  match s with
  | String c rest =>
      if Ascii.eqb c "-" then (-1, rest)
      else if Ascii.eqb c "+" then (1, rest)
      else (1, s)
  | EmptyString => (1, s)
  end.

Definition strip_radix (s : string) : Z * string :=
  match s with
  | String c (String x rest) =>
      if Ascii.eqb c "0" && (Ascii.eqb x "x" || Ascii.eqb x "X")
      then (16, rest) else (10, s)
  | _ => (10, s)
  end.

Definition parseInt (input : string) : js_number :=
  let (sign, unsigned) := strip_sign (trim_start input) in
  let (radix, digits) := strip_radix unsigned in
  match digits with
  | EmptyString => NaN
  | String c _ =>
      match digit_value radix c with
      | Some _ => Num (sign * digits_value radix 0 digits)
      | None => NaN
      end
  end.

End Text.

(** ** The markup library

    [cheerio] is an external library; this is a model of the calls
    [src/index.ts] makes on it: building and serialising a small tree
    ([$("<ul>")], [.attr], [.text], [.append], [.html]) and reading one back
    ([cheerio.load], the selector [details > ul > li], [.data]).

    The reader is a tokenizer (a machine that takes one character at a time)
    and a tree builder over its tokens.  It covers comments, text, start and
    end tags and attributes (quoted either way, or bare).  Character
    references, raw-text elements and the implied [html], [head] and [body]
    elements are not modelled; of the implied end tags only that of [li]
    before [li] is.  The theorems below run the reader on the markup
    [printMetadata] writes, and on that markup with another attribute
    value. *)

Module Cheerio.

Import Text.

#[warnings="-register-all"] Inductive node : Type :=
| Element (tag : string) (attribs : list (string * string)) (children : list node)
| TextNode (data : string)
| CommentNode (data : string).

(** *** Serialising *)

Fixpoint render_attribs (attribs : list (string * string)) : string :=
  match attribs with
  | [] => ""
  | (name, value) :: rest =>
      (" " ++ name ++ "=" ++ String dquote (value ++ String dquote (render_attribs rest)))%string
  end.

(** Outer markup of a node.  The texts and attribute values the program
    writes hold no markup character, so none is escaped here. *)
Fixpoint outer_html (n : node) : string :=
  match n with
  | Element tag attribs children =>
      ("<" ++ tag ++ render_attribs attribs ++ ">"
       ++ String.concat "" (map outer_html children)
       ++ "</" ++ tag ++ ">")%string
  | TextNode data => data
  | CommentNode data => ("<!--" ++ data ++ "-->")%string
  end.

(** [.html()]: the markup of the children. *)
Definition html (children : list node) : string :=
  String.concat "" (map outer_html children).

(** *** Tokenizer *)

Inductive token : Type :=
| StartTag (name : string) (attribs : list (string * string))
| EndTag (name : string)
| Characters (data : string)
| CommentTok (data : string).

Record tag : Type := {
  closing : bool;
  tag_name : string;
  tag_attribs : list (string * string)
}.

Inductive mode : Type :=
| Data (text : string)
| TagOpen (text : string)
| EndTagOpen (text : string)
| TagName (closing : bool) (name : string)
| BeforeAttrName (t : tag)
| AttrName (t : tag) (name : string)
| AfterAttrName (t : tag) (name : string)
| BeforeAttrValue (t : tag) (name : string)
| AttrValueDouble (t : tag) (name : string) (value : string)
| AttrValueSingle (t : tag) (name : string) (value : string)
| AttrValueBare (t : tag) (name : string) (value : string)
| AfterAttrValue (t : tag)
| SelfClosing (t : tag)
| MarkupDeclOpen
| MarkupDeclDash
| Comment (text : string)
| CommentDash (text : string)
| CommentEnd (text : string)
| BogusComment (text : string).

(** The tokens emitted so far, the last one first, and the state. *)
Definition tokenizer : Type := (list token * mode)%type.

Definition html_space (c : ascii) : bool :=
  (code c =? 9) || (code c =? 10) || (code c =? 12) || (code c =? 13) || (code c =? 32).

Definition is_char (c : ascii) (s : string) : bool :=
  match s with
  | String d EmptyString => Ascii.eqb c d
  | _ => false
  end.

(** A repeated attribute name is dropped: the first one stays. *)
Definition add_attrib (t : tag) (name value : string) : tag :=
  {| closing := closing t;
     tag_name := tag_name t;
     tag_attribs :=
       if existsb (fun a => String.eqb (fst a) name) (tag_attribs t)
       then tag_attribs t
       else tag_attribs t ++ [(name, value)] |}.

Definition flush (out : list token) (text : string) : list token :=
  if nonempty text then Characters text :: out else out.

Definition emit_tag (out : list token) (t : tag) : tokenizer :=
  ((if closing t then EndTag (tag_name t) else StartTag (tag_name t) (tag_attribs t))
   :: out,
   Data "").

Definition data_step (out : list token) (text : string) (c : ascii) : tokenizer :=
  if is_char c "<" then (out, TagOpen text) else (out, Data (snoc text c)).

Definition before_attr_name_step (out : list token) (t : tag) (c : ascii) : tokenizer :=
  if html_space c then (out, BeforeAttrName t)
  else if is_char c "/" then (out, SelfClosing t)
  else if is_char c ">" then emit_tag out t
  else (out, AttrName t (String (to_lower c) "")).

Definition step (tk : tokenizer) (c : ascii) : tokenizer :=
  let (out, m) := tk in
  match m with
  | Data text => data_step out text c
  | TagOpen text =>
      if is_char c "!" then (flush out text, MarkupDeclOpen)
      else if is_char c "/" then (out, EndTagOpen text)
      else if is_alpha c then (flush out text, TagName false (String (to_lower c) ""))
      else if is_char c "?" then (flush out text, BogusComment "?")
      else data_step out (snoc text "<") c
  | EndTagOpen text =>
      if is_alpha c then (flush out text, TagName true (String (to_lower c) ""))
      else if is_char c ">" then (out, Data text)
      else (flush out text, BogusComment (String c ""))
  | TagName cl name =>
      let t := {| closing := cl; tag_name := name; tag_attribs := [] |} in
      if html_space c then (out, BeforeAttrName t)
      else if is_char c "/" then (out, SelfClosing t)
      else if is_char c ">" then emit_tag out t
      else (out, TagName cl (snoc name (to_lower c)))
  | BeforeAttrName t => before_attr_name_step out t c
  | AttrName t name =>
      if html_space c then (out, AfterAttrName t name)
      else if is_char c "/" then (out, SelfClosing (add_attrib t name ""))
      else if is_char c ">" then emit_tag out (add_attrib t name "")
      else if is_char c "=" then (out, BeforeAttrValue t name)
      else (out, AttrName t (snoc name (to_lower c)))
  | AfterAttrName t name =>
      if html_space c then (out, AfterAttrName t name)
      else if is_char c "/" then (out, SelfClosing (add_attrib t name ""))
      else if is_char c "=" then (out, BeforeAttrValue t name)
      else if is_char c ">" then emit_tag out (add_attrib t name "")
      else (out, AttrName (add_attrib t name "") (String (to_lower c) ""))
  | BeforeAttrValue t name =>
      if html_space c then (out, BeforeAttrValue t name)
      else if Ascii.eqb c dquote then (out, AttrValueDouble t name "")
      else if Ascii.eqb c squote then (out, AttrValueSingle t name "")
      else if is_char c ">" then emit_tag out (add_attrib t name "")
      else (out, AttrValueBare t name (String c ""))
  | AttrValueDouble t name value =>
      if Ascii.eqb c dquote then (out, AfterAttrValue (add_attrib t name value))
      else (out, AttrValueDouble t name (snoc value c))
  | AttrValueSingle t name value =>
      if Ascii.eqb c squote then (out, AfterAttrValue (add_attrib t name value))
      else (out, AttrValueSingle t name (snoc value c))
  | AttrValueBare t name value =>
      if html_space c then (out, BeforeAttrName (add_attrib t name value))
      else if is_char c ">" then emit_tag out (add_attrib t name value)
      else (out, AttrValueBare t name (snoc value c))
  | AfterAttrValue t => before_attr_name_step out t c
  | SelfClosing t =>
      if is_char c ">" then emit_tag out t else before_attr_name_step out t c
  | MarkupDeclOpen =>
      if is_char c "-" then (out, MarkupDeclDash)
      else if is_char c ">" then (CommentTok "" :: out, Data "")
      else (out, BogusComment (String c ""))
  | MarkupDeclDash =>
      if is_char c "-" then (out, Comment "")
      else if is_char c ">" then (CommentTok "-" :: out, Data "")
      else (out, BogusComment (String "-" (String c "")))
  | Comment text =>
      if is_char c "-" then (out, CommentDash text) else (out, Comment (snoc text c))
  | CommentDash text =>
      if is_char c "-" then (out, CommentEnd text)
      else (out, Comment (snoc (snoc text "-") c))
  | CommentEnd text =>
      if is_char c ">" then (CommentTok text :: out, Data "")
      else if is_char c "-" then (out, CommentEnd (snoc text "-"))
      else (out, Comment (snoc (snoc (snoc text "-") "-") c))
  | BogusComment text =>
      if is_char c ">" then (CommentTok text :: out, Data "")
      else (out, BogusComment (snoc text c))
  end.

Fixpoint run (tk : tokenizer) (s : string) : tokenizer :=
  match s with
  | EmptyString => tk
  | String c rest => run (step tk c) rest
  end.

(** End of input: pending text and an open comment are emitted, an
    unfinished tag is dropped. *)
Definition finish (tk : tokenizer) : list token :=
  let (out, m) := tk in
  rev
    match m with
    | Data text => flush out text
    | TagOpen text => flush out (snoc text "<")
    | EndTagOpen text => flush out (snoc (snoc text "<") "/")
    | Comment text | CommentDash text | CommentEnd text | BogusComment text =>
        CommentTok text :: out
    | MarkupDeclOpen => CommentTok "" :: out
    | MarkupDeclDash => CommentTok "-" :: out
    | _ => out
    end.

Definition tokenize (s : string) : list token := finish (run ([], Data "") s).

(** *** Tree builder *)

(** An open element: its tag, its attributes and the children its parent
    had when it opened. *)
Definition frame : Type := (string * list (string * string) * list node)%type.

Definition builder : Type := (list node * list frame)%type.

Definition void_element (name : string) : bool :=
  existsb (String.eqb name)
    ["area"; "base"; "br"; "col"; "embed"; "hr"; "img"; "input"; "link";
     "meta"; "param"; "source"; "track"; "wbr"].

Definition close_top (b : builder) : builder :=
  match b with
  | (current, (name, attribs, siblings) :: stack) =>
      (siblings ++ [Element name attribs current], stack)
  | (current, []) => b
  end.

Fixpoint close_until (name : string) (current : list node) (stack : list frame)
  : builder :=
  match stack with
  | [] => (current, [])
  | (open, attribs, siblings) :: rest =>
      let closed := siblings ++ [Element open attribs current] in
      if String.eqb open name then (closed, rest)
      else close_until name closed rest
  end.

Fixpoint close_all (current : list node) (stack : list frame) : list node :=
  match stack with
  | [] => current
  | (open, attribs, siblings) :: rest =>
      close_all (siblings ++ [Element open attribs current]) rest
  end.

Definition top_is (name : string) (stack : list frame) : bool :=
  match stack with
  | (open, _, _) :: _ => String.eqb open name
  | [] => false
  end.

Definition build (b : builder) (tok : token) : builder :=
  let (current, stack) := b in
  match tok with
  | Characters data => (current ++ [TextNode data], stack)
  | CommentTok data => (current ++ [CommentNode data], stack)
  | StartTag name attribs =>
      if void_element name then (current ++ [Element name attribs []], stack)
      else
        let (current', stack') :=
          if String.eqb name "li" && top_is "li" stack then close_top b else b in
        ([], (name, attribs, current') :: stack')
  | EndTag name =>
      if existsb (fun f => String.eqb (fst (fst f)) name) stack
      then close_until name current stack
      else b
  end.

(** [cheerio.load(html)]: the top-level nodes of the document. *)
Definition load (markup : string) : list node :=
  let (current, stack) := fold_left build (tokenize markup) ([], []) in
  close_all current stack.

(** *** Selecting and reading *)

(** The attributes of every element [$("details > ul > li")] selects, in
    document order.  [grandparent] and [parent] are the tags above [n]. *)
Fixpoint select_in (grandparent parent : string) (n : node)
  : list (list (string * string)) :=
  match n with
  | Element name attribs children =>
      (if String.eqb name "li" && String.eqb parent "ul"
          && String.eqb grandparent "details"
       then [attribs] else [])
      ++ flat_map (select_in parent name) children
  | _ => []
  end.

Definition select_details_ul_li (document : list node)
  : list (list (string * string)) :=
  flat_map (select_in "" "") document.

Definition word_char (c : ascii) : bool :=
  is_alpha c || is_digit c || is_char c "_".

(** The library's [camelCase]: [_], [.] or [-] before a word character goes
    and the character is put in upper case. *)
Fixpoint camelCase (s : string) : string :=
  match s with
  | EmptyString => EmptyString
  | String c rest =>
      if is_char c "_" || is_char c "." || is_char c "-" then
        match rest with
        | EmptyString => EmptyString
        | String d rest' =>
            if word_char d then String (to_upper d) (camelCase rest')
            else String c (camelCase rest)
        end
      else String c (camelCase rest)
  end.

Definition strip_data_prefix (name : string) : option string :=
  if prefix "data-" name
  then Some (substring 5 (String.length name - 5) name) else None.

(** [key in $(li).data()], and the text [parseInt] sees for [data[key]].
    [.data()] turns the attribute texts [true], [false], [null] and
    canonical numerals into primitives whose string form is the attribute
    text again, so [parseInt] reads the attribute text.  A value in braces or
    brackets that is valid JSON becomes an object or an array, which
    [parseInt] reads through its string form (an array of one number as that
    number) or throws on (an object whose [toString] is not a function);
    that case is not modelled, and neither are character references: the
    statements about an attribute text leave out texts that open with a
    brace or a bracket or hold an ampersand.  Of two attributes with one
    key the first is taken. *)
Fixpoint data_lookup (key : string) (attribs : list (string * string))
  : option string :=
  match attribs with
  | [] => None
  | (name, value) :: rest =>
      match strip_data_prefix name with
      | Some short =>
          if String.eqb (camelCase short) key then Some value
          else data_lookup key rest
      | None => data_lookup key rest
      end
  end.

End Cheerio.

(** ** Body and metadata codecs *)

Module Codec.

Import Text Cheerio.

Definition DO_NOT_EDIT : string := ("<!-- DO NOT EDIT -->" ++ CRLF)%string.
Definition SEPARATOR : string := (CRLF ++ "---" ++ CRLF)%string.

(** The body of the [details.each] callback: [acc] is
    [metadata.canonicalId] so far, [null] or the last [parseInt] result. *)
Definition read_li (acc : option js_number) (attribs : list (string * string))
  : option js_number :=
  match data_lookup "canonicalId" attribs with
  | Some text => Some (parseInt text)
  | None => acc
  end.

(** The check after the loop: [NaN] and numbers below 1 become [null]. *)
Definition normalise (raw : option js_number) : option Z :=
  match raw with
  | Some (Num n) => if n <? 1 then None else Some n
  | Some NaN => None
  | None => None
  end.

(** The source can throw here, in [parseInt], when [.data()] has turned the
    attribute into a JSON object (see [data_lookup]); that needs an opening
    brace in the attribute, written as such or as a character reference.
    The model returns on every text, and the statements that say a call
    returns are about texts with neither. *)
Definition parseMetadata (markup : string) : option IssueMetadata :=
  let details := select_details_ul_li (load markup) in
  match details with
  | [] => None
  | _ => Some {| canonicalId := normalise (fold_left read_li details None) |}
  end.

(** [li.append(child)]. *)
Definition append_child (li child : node) : node :=
  match li with
  | Element name attribs children => Element name attribs (children ++ [child])
  | _ => li
  end.

(** [addField], on the children [details] of the list built so far. *)
Definition addField (name : string) (value : option Z) (text : string)
           (f : node -> node) (details : list node) : list node :=
  match value with
  | Some v =>
      details ++ [f (Element "li" [(("data-" ++ name)%string, toString v)] [TextNode text])]
  | None => details
  end.

Definition printMetadata (metadata : option IssueMetadata) : option string :=
  match metadata with
  | None => None
  | Some m =>
      let details :=
        addField "canonical-id" (canonicalId m) "Canonical link: "
          (fun li => append_child li (Element "a" [] [TextNode ""])) [] in
      Some (html [Element "details" []
                    [Element "summary" [] [TextNode "Issue metadata"];
                     Element "ul" [] details]])
  end.

Definition parseIssueBody (bodyText : string) : IssueBody :=
  let sections := split SEPARATOR bodyText in
  let last := List.last sections "" in
  let metadata := if nonempty last then parseMetadata last else None in
  match metadata with
  | Some m => {| sections := removelast sections; metadata := m |}
  | None => {| sections := sections; metadata := newMetadata |}
  end.

Definition printIssueBody (body : IssueBody) : string :=
  let sections := sections body in
  let metadataSection := printMetadata (Some (metadata body)) in
  let sections' :=
    match metadataSection with
    | Some text =>
        if nonempty text then sections ++ [(DO_NOT_EDIT ++ text)%string] else sections
    | None => sections
    end in
  join SEPARATOR sections'.

End Codec.

(** ** Issue cache synchroniser *)

Module Synchroniser.

Import Codec.

Record Repository : Type := {
  owner_login : string;
  repo_name : string
}.

(** The [issues] collection: its documents, and whether the unique index on
    [(owner, repo, issueId)] exists. *)
Record Collection : Type := {
  documents : list Issue;
  unique_index : bool
}.

(** What a call can change or leave a trace in: the collection, the
    [(owner, repo)] of every listing asked of the tracker, and the number of
    [createIndexes] calls. *)
Record World : Type := {
  collection : Collection;
  tracker_calls : list (string * string);
  index_calls : nat
}.

Inductive outcome (A : Type) : Type :=
| Returned (value : A)
| Thrown (reason : string).

Arguments Returned {A} value.
Arguments Thrown {A} reason.

(** An [async] computation: it runs on a world, returns or throws, and
    leaves a world. *)
Definition M (A : Type) : Type := World -> outcome A * World.

Definition ret {A : Type} (a : A) : M A := fun w => (Returned a, w).

Definition bind {A B : Type} (m : M A) (k : A -> M B) : M B :=
  fun w =>
    match m w with
    | (Returned a, w') => k a w'
    | (Thrown reason, w') => (Thrown reason, w')
    end.

Notation "x <- m ;; k" := (bind m (fun x => k))
  (at level 61, m at next level, right associativity).
Notation "m ;;; k" := (bind m (fun _ => k))
  (at level 61, right associativity).

(** The filter [{ owner, repo }]. *)
Definition same_repo (o r : string) (doc : Issue) : bool :=
  String.eqb (owner doc) o && String.eqb (repo doc) r.

(** Two documents with one key [(owner, repo, issueId)]. *)
Definition same_key (a b : Issue) : bool :=
  same_repo (owner a) (repo a) b && (issueId a =? issueId b).

Definition with_documents (w : World) (docs : list Issue) : World :=
  {| collection := {| documents := docs;
                      unique_index := unique_index (collection w) |};
     tracker_calls := tracker_calls w;
     index_calls := index_calls w |}.

(** [collection.deleteMany({ owner, repo })]. *)
Definition deleteMany (owner repo : string) : M unit :=
  fun w =>
    (Returned tt,
     with_documents w
       (filter (fun doc => negb (same_repo owner repo doc)) (documents (collection w)))).

(** [collection.find({ owner, repo }).toArray()]. *)
Definition find (owner repo : string) : M (list Issue) :=
  fun w => (Returned (filter (same_repo owner repo) (documents (collection w))), w).

(** [collection.createIndexes] with the unique key. *)
Definition createIndexes : M unit :=
  fun w =>
    (Returned tt,
     {| collection := {| documents := documents (collection w); unique_index := true |};
        tracker_calls := tracker_calls w;
        index_calls := S (index_calls w) |}).

(** [collection.insertMany(issues)]: the documents go in one after the other;
    one that repeats a key under the unique index throws, and those before
    it stay. *)
Fixpoint insertMany (issues : list Issue) : M unit :=
  match issues with
  | [] => ret tt
  | doc :: rest =>
      fun w =>
        if unique_index (collection w)
           && existsb (same_key doc) (documents (collection w))
        then (Thrown "duplicate key", w)
        else insertMany rest (with_documents w (documents (collection w) ++ [doc]))
  end.

(** [github.paginate(github.issues.listForRepo ...)]. *)
Definition paginate (github : GitHubAPI) (owner repo : string) : M (list RawIssue) :=
  fun w =>
    (Returned (listForRepo github owner repo),
     {| collection := collection w;
        tracker_calls := tracker_calls w ++ [(owner, repo)];
        index_calls := index_calls w |}).

Definition getIssuesFromGithub (github : GitHubAPI) (owner repo : string)
  : M (list Issue) :=
  res <- paginate github owner repo ;;
  let issues := filter (fun raw => negb (pull_request raw)) res in
  ret (map (fun raw =>
              {| owner := owner;
                 repo := repo;
                 issueId := number raw;
                 body := parseIssueBody (raw_body raw) |}) issues).

Definition in_context (github : GitHubAPI) (doc : Issue) : IssueContext :=
  {| github := github; issue := doc |}.

Definition getIssuesforRepo (github : GitHubAPI) (repository : Repository)
  : M (list IssueContext) :=
  let owner := owner_login repository in
  let repo := repo_name repository in
  (if String.eqb repo "experimental" then deleteMany owner repo else ret tt) ;;;
  existing <- find owner repo ;;
  if negb (Nat.eqb (List.length existing) 0) then
    ret (map (in_context github) existing)
  else
    createIndexes ;;;
    issues <- getIssuesFromGithub github owner repo ;;
    if Nat.eqb (List.length issues) 0 then ret []
    else
      let contexts := map (in_context github) issues in
      insertMany issues ;;;
      ret contexts.

End Synchroniser.

(** ** Vocabulary of the properties *)

Module Samples.

Import Text Initialise.

(** The IDs the assignment loop gave: [after] read at the places where
    [before] had no canonical ID. *)
Definition assigned_ids (before after : list IssueContext) : list (option Z) :=
  map (fun p => context_id (snd p))
    (filter (fun p => negb (truthy (context_id (fst p)))) (combine before after)).

Definition count_unnumbered (contexts : list IssueContext) : nat :=
  List.length (filter (fun context => negb (truthy (context_id context))) contexts).

(** [base + 1, ..., base + n]. *)
Definition counter (base : Z) (n : nat) : list Z :=
  map (fun j => base + Z.of_nat j) (seq 1 n).

(** Where counting goes on from once the gaps are used up: the first entry
    of the gap list, which is popped last, or [nextId] when there is none. *)
Definition counter_base (st : AssignState) : Z :=
  match st_gaps st with
  | g :: _ => g
  | [] => st_nextId st
  end.

Definition a_client : GitHubAPI :=
  {| client_id := 1; listForRepo := fun _ _ => [] |}.

(** Issue [n] of [TokTok/c-toxcore], with one section of text and the
    canonical ID [id]. *)
Definition an_issue (n : Z) (id : option Z) : IssueContext :=
  {| github := a_client;
     issue := {| owner := "TokTok";
                 repo := "c-toxcore";
                 issueId := n;
                 body := {| sections := ["text"];
                            metadata := {| canonicalId := id |} |} |} |}.

Fixpoint all_digits (s : string) : bool :=
  match s with
  | EmptyString => true
  | String c rest => is_digit c && all_digits rest
  end.

(** The text is a decimal numeral: one digit or more, after an optional
    minus sign. *)
Definition numeric (s : string) : bool :=
  match s with
  | String c rest =>
      if Ascii.eqb c "-" then nonempty rest && all_digits rest
      else all_digits s
  | EmptyString => false
  end.

(** The markup [printMetadata] writes for one canonical ID, with [value] as
    the text of the attribute. *)
Definition fragment_open : string :=
  ("<details><summary>Issue metadata</summary><ul><li data-canonical-id="
   ++ String dquote "")%string.

Definition fragment_close : string :=
  String dquote ">Canonical link: <a></a></li></ul></details>".

Definition fragment (value : string) : string :=
  (fragment_open ++ value ++ fragment_close)%string.

(** The block [printMetadata] writes when no field is present. *)
Definition empty_block : string :=
  "<details><summary>Issue metadata</summary><ul></ul></details>".

(** No character of [s] is [c]. *)
Fixpoint free_of (c : ascii) (s : string) : bool :=
  match s with
  | EmptyString => true
  | String d rest => negb (Ascii.eqb d c) && free_of c rest
  end.

(** [Number.MAX_SAFE_INTEGER], [2^53 - 1]. *)
Definition MAX_SAFE_INTEGER : Z := 9007199254740991.

(** Every character of [s] is an ASCII character. *)
Fixpoint ascii_only (s : string) : bool :=
  match s with
  | EmptyString => true
  | String c rest => (code c <? 128) && ascii_only rest
  end.

(** An attribute text that reaches [parseInt] as it stands: it is ASCII,
    holds no double quote and no ampersand, and does not open with a brace
    or a bracket. *)
Definition plain_ascii (v : string) : bool :=
  ascii_only v && free_of dquote v && free_of "&" v
  && match v with
     | String c _ => negb (Ascii.eqb c "{" || Ascii.eqb c "[")
     | EmptyString => true
     end.


(** [sep] occurs somewhere in [s]. *)
Fixpoint occurs (sep s : string) : bool :=
  match s with
  | EmptyString => prefix sep s
  | String _ rest => prefix sep s || occurs sep rest
  end.

End Samples.

Module SyncSamples.

Import Codec Synchroniser.


(** The issues a listing yields: the pull requests left out, each body
    decoded. *)
Definition fetched (github : GitHubAPI) (o r : string) : list Issue :=
  map (fun raw =>
         {| owner := o; repo := r; issueId := number raw;
            body := parseIssueBody (raw_body raw) |})
    (filter (fun raw => negb (pull_request raw)) (listForRepo github o r)).

(** The world after a cache miss that leaves [docs] in the collection: the
    index was asked for once and the tracker was asked once. *)
Definition after_miss (w : World) (o r : string) (docs : list Issue) : World :=
  {| collection := {| documents := docs; unique_index := true |};
     tracker_calls := tracker_calls w ++ [(o, r)];
     index_calls := S (index_calls w) |}.

(** A tracker with two issues and a pull request in every repository. *)
Definition a_tracker : GitHubAPI :=
  {| client_id := 7;
     listForRepo := fun _ _ =>
       [ {| number := 1; raw_body := "first"; pull_request := false |};
         {| number := 2; raw_body := "a change"; pull_request := true |};
         {| number := 3; raw_body := "third"; pull_request := false |} ] |}.

Definition a_document (r : string) (n : Z) : Issue :=
  {| owner := "TokTok"; repo := r; issueId := n;
     body := {| sections := ["cached"]; metadata := newMetadata |} |}.

Definition a_world (docs : list Issue) : World :=
  {| collection := {| documents := docs; unique_index := true |};
     tracker_calls := [];
     index_calls := 0 |}.

End SyncSamples.

(** ** The helpers around the core *)

Module Orchestrator.

(** [flatten]: every inner array is pushed onto [res], one after the
    other. *)
Definition flatten {T : Type} (array : list (list T)) : list T :=
  fold_left (fun res x => res ++ x) array [].

End Orchestrator.

(** The handler mounted on [/b]. *)
Module Redirector.

Import Text.

(** What the handler writes: the status of [writeHead], its [location]
    header, and the text given to [end]. *)
Record Response : Type := {
  status : Z;
  location : option string;
  sent : string
}.

Definition issueUrl : string := "https://github.com/TokTok/experimental/issues/23".

(** [url.substr(1)]. *)
Definition substr1 (url : string) : string :=
  match url with
  | String _ rest => rest
  | EmptyString => EmptyString
  end.

Definition redirect (url : string) : Response :=
  match parseInt (substr1 url) with
  | NaN =>
      {| status := 404;
         location := None;
         sent := ("Invalid request to bug redirector: " ++ url)%string |}
  | Num _ =>
      {| status := 301;
         location := Some issueUrl;
         sent := ("Redirecting to " ++ issueUrl)%string |}
  end.

End Redirector.

Module MoreVocabulary.

Import Initialise Synchroniser.

(** [first, first + 1, ..., first + n - 1]. *)
Definition zrange (first : Z) (n : nat) : list Z :=
  map (fun j => first + Z.of_nat j) (seq 0 n).

(** [j] is an element of [array]. *)
Definition used (array : list Z) (j : Z) : bool := existsb (Z.eqb j) array.

(** The integers from 1 up to, and without, the last element of [array]
    that are not in [array], in ascending order. *)
Definition unused_below_last (array : list Z) : list Z :=
  filter (fun j => negb (used array j))
    (zrange 1 (Z.to_nat (or_zero (last_elem array) - 1))).

(** A context with its canonical ID taken away. *)
Definition erase_id (context : IssueContext) : IssueContext :=
  {| github := github context;
     issue := {| owner := owner (issue context);
                 repo := repo (issue context);
                 issueId := issueId (issue context);
                 body := {| sections := sections (body (issue context));
                            metadata := newMetadata |} |} |}.

(** [a] is not after [b] in the order of [sort()]: the text of [b] is not
    below the text of [a]. *)
Definition text_le (a b : Z) : Prop :=
  String.ltb (toString b) (toString a) = false.

(** The key of the unique index. *)
Definition key (doc : Issue) : string * string * Z :=
  (owner doc, repo doc, issueId doc).

End MoreVocabulary.

(** * Properties *)

(** ** Allocator *)

Module AllocatorFacts.

Import Allocator.

Lemma last_elem_in (array : list Z) (m : Z) : last_elem array = Some m -> In m array.
Proof.
  induction array as [| y rest IH]; [discriminate |].
  destruct rest as [| z rest'].
  - intros [= ->]. now left.
  - intro H. right. now apply IH.
Qed.

Lemma last_elem_max (array : list Z) (m : Z) :
  Sorted Z.le array -> last_elem array = Some m -> forall u, In u array -> u <= m.
Proof.
  intros Hs Hl u Hu.
  apply Sorted_StronglySorted in Hs; [| intros x y z; lia].
  induction Hs as [| a l Hl' IH Hall]; [contradiction |].
  destruct l as [| b l'].
  - injection Hl as <-. destruct Hu as [-> | []]. lia.
  - assert (Hm : last_elem (b :: l') = Some m) by exact Hl.
    destruct Hu as [<- | Hu].
    + rewrite Forall_forall in Hall.
      specialize (Hall m (last_elem_in _ _ Hm)). exact Hall.
    + now apply IH.
Qed.

(** Values that are all at least 1 are left in place by the [while] loop. *)
Lemma shift_leading_positive (array : list Z) :
  Forall (fun u => 1 <= u) array -> shift_leading array = array.
Proof.
  intros [| x rest Hx _]; [reflexivity |].
  simpl. destruct (Z.ltb_spec x 1); [lia | reflexivity].
Qed.

(** What the [while] loop takes off the front. *)
Lemma shift_leading_split (array : list Z) :
  exists dropped,
    array = dropped ++ shift_leading array /\ Forall (fun x => x < 1) dropped.
Proof.
  induction array as [| x rest [dropped [Heq Hall]]].
  - exists []. split; [reflexivity | constructor].
  - simpl. destruct (Z.ltb_spec x 1) as [Hlt | Hge].
    + exists (x :: dropped). split; [simpl; now f_equal | now constructor].
    + exists []. split; [reflexivity | constructor].
Qed.

Lemma shift_leading_head (array : list Z) :
  match shift_leading array with
  | x :: _ => 1 <= x
  | [] => True
  end.
Proof.
  induction array as [| x rest IH]; [exact I |].
  simpl. destruct (Z.ltb_spec x 1); [exact IH | assumption].
Qed.

Lemma shift_leading_fixed (array : list Z) :
  shift_leading array = array <->
  match array with
  | x :: _ => 1 <= x
  | [] => True
  end.
Proof.
  split.
  - intro H. pose proof (shift_leading_head array) as Hh.
    rewrite H in Hh. exact Hh.
  - destruct array as [| x rest]; [reflexivity |].
    intro H. simpl. destruct (Z.ltb_spec x 1); [lia | reflexivity].
Qed.

Lemma sorted_snoc (gaps : list Z) (i : Z) :
  StronglySorted Z.lt gaps -> Forall (fun g => g < i) gaps ->
  StronglySorted Z.lt (gaps ++ [i]).
Proof.
  induction 1 as [| g rest Hs IH Hall]; intro Hlt; simpl.
  - repeat constructor.
  - inversion Hlt as [| ? ? Hg Hrest]; subst.
    constructor; [now apply IH |].
    apply Forall_app. split; [assumption | now repeat constructor].
Qed.

(** The loop never stops for want of fuel: past the number of values left
    to visit, more fuel changes nothing. *)
Lemma scan_fuel_enough (fuel extra : nat) (array : list Z) (maxGaps i : Z)
      (arrayIndex : nat) (gaps : list Z) :
  (Z.to_nat (or_zero (last_elem array) - i) <= fuel)%nat ->
  scan (fuel + extra) array maxGaps i arrayIndex gaps
  = scan fuel array maxGaps i arrayIndex gaps.
Proof.
  revert i arrayIndex gaps.
  induction fuel as [| fuel IH]; intros i arrayIndex gaps Hfuel.
  - destruct extra as [| extra]; [reflexivity |].
    simpl. destruct (last_elem array) as [m |]; simpl in *; [| reflexivity].
    destruct (Z.ltb_spec i m); [lia | reflexivity].
  - simpl. destruct (lt_undef i (last_elem array)) eqn:Hlt; [| reflexivity].
    destruct (Z.of_nat _ =? maxGaps); [reflexivity |].
    apply IH. lia.
Qed.

(** [findGaps] gives its loop fuel enough. *)
Lemma findGaps_fuel_enough (extra : nat) (array : list Z) (maxGaps : Z) :
  scan (scan_fuel array + extra) array maxGaps 1 0 []
  = scan (scan_fuel array) array maxGaps 1 0 [].
Proof. apply scan_fuel_enough. unfold scan_fuel. lia. Qed.

(** Invariant of the [for] loop when [maxGaps] is at least 1. *)
Lemma scan_invariant (fuel : nat) (array : list Z) (maxGaps m : Z) :
  last_elem array = Some m ->
  forall (i : Z) (arrayIndex : nat) (gaps : list Z),
    Z.of_nat (List.length gaps) < maxGaps ->
    StronglySorted Z.lt gaps ->
    Forall (fun g => 1 <= g /\ g < i /\ g < m) gaps ->
    1 <= i ->
    let result := scan fuel array maxGaps i arrayIndex gaps in
    Z.of_nat (List.length result) <= maxGaps
    /\ StronglySorted Z.lt result
    /\ Forall (fun g => 1 <= g /\ g < m) result.
Proof.
  intro Hlast.
  assert (Hweak : forall i gaps,
             Forall (fun g => 1 <= g /\ g < i /\ g < m) gaps ->
             Forall (fun g => 1 <= g /\ g < m) gaps).
  { intros i gaps H. eapply Forall_impl; [| exact H]. simpl. intros; lia. }
  induction fuel as [| fuel IH]; intros i arrayIndex gaps Hlen Hsorted Hall Hi; simpl.
  - repeat split; [lia | assumption | eauto].
  - rewrite Hlast. simpl.
    destruct (Z.ltb_spec i m) as [Him |]; [| repeat split; [lia | assumption | eauto]].
    destruct (eq_undef i (nth_error array arrayIndex)).
    + destruct (Z.eqb_spec (Z.of_nat (List.length gaps)) maxGaps); [lia |].
      apply IH; try assumption; try lia.
      eapply Forall_impl; [| exact Hall]. simpl. intros; lia.
    + assert (Hsorted' : StronglySorted Z.lt (gaps ++ [i])).
      { apply sorted_snoc; [assumption |].
        eapply Forall_impl; [| exact Hall]. simpl. intros; lia. }
      assert (Hall' : Forall (fun g => 1 <= g /\ g < i + 1 /\ g < m) (gaps ++ [i])).
      { apply Forall_app. split.
        - eapply Forall_impl; [| exact Hall]. simpl. intros; lia.
        - repeat constructor; lia. }
      assert (Hlen' : Z.of_nat (List.length (gaps ++ [i])) = Z.of_nat (List.length gaps) + 1).
      { rewrite length_app. simpl. lia. }
      destruct (Z.eqb_spec (Z.of_nat (List.length (gaps ++ [i]))) maxGaps).
      * repeat split; [lia | assumption | eauto].
      * apply IH; try assumption; lia.
Qed.

(** C10: the worked examples of the gap finder.  [findGaps([1,2,4,5], 10)] is
    [[3]], [findGaps([], 5)] is empty, [findGaps([2,3], 10)] is [[1]], and
    [findGaps([5], 3)] has at most 3 values, each below 5. *)
Theorem findGaps_examples :
  gaps_of [1; 2; 4; 5] 10 = [3]
  /\ gaps_of [] 5 = []
  /\ gaps_of [2; 3] 10 = [1]
  /\ Z.of_nat (List.length (gaps_of [5] 3)) <= 3
  /\ Forall (fun g => g < 5) (gaps_of [5] 3).
Proof.
  split; [reflexivity |].
  split; [reflexivity |].
  split; [reflexivity |].
  assert (H : gaps_of [5] 3 = [1; 2; 3]) by reflexivity.
  rewrite H. split; [simpl; lia | repeat constructor; lia].
Qed.

(** C4, as stated, fails when [maxGaps] is 0: the length is compared with
    [maxGaps] only after a gap was pushed, so the loop never sees length 0
    and [findGaps([5], 0)] has four values. *)
Lemma findGaps_zero_bound_exceeded :
  Sorted Z.le [5] /\ Forall (fun u => 1 <= u) [5]
  /\ gaps_of [5] 0 = [1; 2; 3; 4]
  /\ ~ (Z.of_nat (List.length (gaps_of [5] 0)) <= 0).
Proof.
  assert (H : gaps_of [5] 0 = [1; 2; 3; 4]) by reflexivity.
  rewrite H. simpl.
  split; [repeat constructor |].
  split; [repeat constructor; lia |].
  split; [reflexivity | lia].
Qed.

(** C4, amended: for an ascending list of positive integers and
    [maxGaps >= 1], [findGaps] returns at most [maxGaps] values, in strictly
    ascending order, each at least 1 and below the largest used ID. *)
Theorem findGaps_bounded (array : list Z) (k : Z) :
  Sorted Z.le array ->
  Forall (fun u => 1 <= u) array ->
  1 <= k ->
  Z.of_nat (List.length (gaps_of array k)) <= k
  /\ StronglySorted Z.lt (gaps_of array k)
  /\ (forall g, In g (gaps_of array k) ->
        1 <= g /\ exists m, In m array /\ (forall u, In u array -> u <= m) /\ g < m).
Proof.
  intros Hsorted Hpos Hk.
  unfold gaps_of, findGaps. simpl.
  rewrite (shift_leading_positive array Hpos).
  destruct (last_elem array) as [m |] eqn:Hlast.
  - assert (Hinv := scan_invariant (scan_fuel array) array k m Hlast 1 0%nat []).
    destruct Hinv as (Hlen & Hs & Hall);
      [simpl; lia | constructor | constructor | lia |].
    rewrite Forall_forall in Hall.
    split; [exact Hlen |]. split; [exact Hs |].
    intros g Hg. destruct (Hall g Hg) as [Hg1 Hgm].
    split; [exact Hg1 |]. exists m.
    split; [now apply last_elem_in |].
    split; [now apply last_elem_max | exact Hgm].
  - unfold scan_fuel. rewrite Hlast. simpl.
    split; [lia |]. split; [constructor |]. intros g [].
Qed.

Lemma findGaps_bounded_witness :
  Z.of_nat (List.length (gaps_of [2; 2; 9] 3)) <= 3
  /\ StronglySorted Z.lt (gaps_of [2; 2; 9] 3)
  /\ (forall g, In g (gaps_of [2; 2; 9] 3) ->
        1 <= g /\ exists m, In m [2; 2; 9] /\ (forall u, In u [2; 2; 9] -> u <= m) /\ g < m).
Proof.
  apply (findGaps_bounded [2; 2; 9] 3).
  - repeat constructor; lia.
  - repeat constructor; lia.
  - lia.
Defined.

(** C9, as stated, fails: [array.shift()] works on the caller's array, so
    after [findGaps([0, 2], 5)] the caller holds [[2]]. *)
Lemma findGaps_changes_argument :
  fst (findGaps [0; 2] 5) = [2] /\ fst (findGaps [0; 2] 5) <> [0; 2].
Proof.
  split; [reflexivity | discriminate].
Qed.

(** C9, amended: [findGaps] takes the leading values below 1 off the
    caller's array and changes nothing else; the array is as it was exactly
    when it is empty or starts with a value of at least 1. *)
Theorem findGaps_argument_after (array : list Z) (maxGaps : Z) :
  (exists dropped,
      array = dropped ++ fst (findGaps array maxGaps)
      /\ Forall (fun x => x < 1) dropped
      /\ match fst (findGaps array maxGaps) with
         | x :: _ => 1 <= x
         | [] => True
         end)
  /\ (fst (findGaps array maxGaps) = array <->
      match array with
      | x :: _ => 1 <= x
      | [] => True
      end).
Proof.
  unfold findGaps. simpl. split.
  - destruct (shift_leading_split array) as [dropped [Heq Hall]].
    exists dropped. repeat split; [assumption | assumption |].
    apply shift_leading_head.
  - apply shift_leading_fixed.
Qed.

End AllocatorFacts.

(** ** Assignment of canonical IDs *)

Module InitialiseFacts.

Import Allocator Initialise Samples.

Lemma fst_assign_cons (context : IssueContext) (rest : list IssueContext)
      (st : AssignState) :
  fst (assign (context :: rest) st)
  = if truthy (context_id context)
    then context :: fst (assign rest st)
    else set_id context (st_nextId (next_id st)) :: fst (assign rest (next_id st)).
Proof.
  simpl. destruct (truthy (context_id context)).
  - destruct (assign rest st); reflexivity.
  - destruct (assign rest (next_id st)); reflexivity.
Qed.

Lemma assign_length (contexts : list IssueContext) :
  forall st, List.length (fst (assign contexts st)) = List.length contexts.
Proof.
  induction contexts as [| context rest IH]; intro st; [reflexivity |].
  rewrite fst_assign_cons.
  destruct (truthy (context_id context)); simpl; now rewrite IH.
Qed.

Lemma assign_keeps_numbered (contexts : list IssueContext) :
  forall st i context,
    nth_error contexts i = Some context ->
    truthy (context_id context) = true ->
    nth_error (fst (assign contexts st)) i = Some context.
Proof.
  induction contexts as [| c rest IH]; intros st i context Hnth Hid.
  - destruct i; discriminate.
  - rewrite fst_assign_cons. destruct i as [| i]; simpl in Hnth.
    + injection Hnth as ->. now rewrite Hid.
    + destruct (truthy (context_id c)); simpl; now apply IH.
Qed.

(** The gap list read from its end. *)
Lemma next_id_rev (st : AssignState) :
  next_id st
  = match rev (st_gaps st) with
    | g :: front => {| st_gaps := rev front; st_nextId := g |}
    | [] => {| st_gaps := []; st_nextId := st_nextId st + 1 |}
    end.
Proof.
  unfold next_id.
  destruct (st_gaps st) as [| g0 gaps0] eqn:Hgaps; [reflexivity |].
  destruct (exists_last (l := g0 :: gaps0)) as [front [g Heq]]; [discriminate |].
  rewrite Heq, last_last, removelast_last, rev_unit, rev_involutive.
  reflexivity.
Qed.

Lemma counter_succ (base : Z) (n : nat) :
  counter base (S n) = (base + 1) :: counter (base + 1) n.
Proof.
  unfold counter. simpl. f_equal.
  rewrite <- seq_shift, map_map. apply map_ext. intro j. lia.
Qed.

Lemma counter_base_pop (st : AssignState) (g : Z) (front : list Z) :
  rev (st_gaps st) = g :: front ->
  counter_base {| st_gaps := rev front; st_nextId := g |} = counter_base st.
Proof.
  intro Hrev. unfold counter_base. simpl.
  assert (Hgaps : st_gaps st = rev front ++ [g]).
  { rewrite <- (rev_involutive (st_gaps st)), Hrev. reflexivity. }
  rewrite Hgaps. destruct (rev front); reflexivity.
Qed.

Lemma assigned_ids_cons (c : IssueContext) (rest : list IssueContext)
      (c' : IssueContext) (rest' : list IssueContext) :
  assigned_ids (c :: rest) (c' :: rest')
  = if truthy (context_id c) then assigned_ids rest rest'
    else context_id c' :: assigned_ids rest rest'.
Proof.
  unfold assigned_ids. simpl. destruct (truthy (context_id c)); reflexivity.
Qed.

Lemma count_unnumbered_cons (c : IssueContext) (rest : list IssueContext) :
  count_unnumbered (c :: rest)
  = if truthy (context_id c) then count_unnumbered rest
    else S (count_unnumbered rest).
Proof.
  unfold count_unnumbered. simpl. destruct (truthy (context_id c)); reflexivity.
Qed.

(** The IDs handed out: the gaps from the last one down, then the counter. *)
Lemma assign_ids (contexts : list IssueContext) :
  forall st m,
    (count_unnumbered contexts <= m)%nat ->
    assigned_ids contexts (fst (assign contexts st))
    = map Some (firstn (count_unnumbered contexts)
                  (rev (st_gaps st) ++ counter (counter_base st) m)).
Proof.
  induction contexts as [| c rest IH]; intros st m Hm; [reflexivity |].
  rewrite fst_assign_cons, count_unnumbered_cons in *.
  destruct (truthy (context_id c)) eqn:Hc.
  - rewrite assigned_ids_cons, Hc. now apply IH.
  - rewrite assigned_ids_cons, Hc, next_id_rev.
    destruct (rev (st_gaps st)) as [| g front] eqn:Hrev.
    + assert (Hgaps : st_gaps st = []).
      { rewrite <- (rev_involutive (st_gaps st)), Hrev. reflexivity. }
      destruct m as [| m]; [lia |].
      unfold counter_base at 1. rewrite Hgaps.
      rewrite counter_succ. simpl. f_equal.
      rewrite (IH _ m) by lia. reflexivity.
    + simpl. f_equal.
      rewrite (IH _ m) by lia. simpl.
      rewrite rev_involutive.
      now rewrite (counter_base_pop st g front Hrev).
Qed.

(** C6: the assignment loop leaves every issue that holds a canonical ID as
    it is and gives the others the gaps from the end of the gap list before
    it counts on.  With IDs 1, 2, 4, 5, 6 and 8 in use the gaps are [[3, 7]]
    and two unnumbered issues receive 7 and then 3. *)
Theorem assign_consumes_gaps_from_end :
  (forall contexts st,
      List.length (fst (assign contexts st)) = List.length contexts
      /\ forall i context,
           nth_error contexts i = Some context ->
           truthy (context_id context) = true ->
           nth_error (fst (assign contexts st)) i = Some context)
  /\ (forall contexts st,
        assigned_ids contexts (fst (assign contexts st))
        = map Some (firstn (count_unnumbered contexts)
                      (rev (st_gaps st)
                       ++ counter (counter_base st) (count_unnumbered contexts))))
  /\ (let contexts :=
        [an_issue 1 (Some 1); an_issue 2 (Some 2); an_issue 3 None;
         an_issue 4 (Some 4); an_issue 5 (Some 5); an_issue 6 (Some 6);
         an_issue 7 None; an_issue 8 (Some 8)] in
      gaps_of (knownIds contexts) (Z.of_nat (List.length contexts)) = [3; 7]
      /\ initialise contexts =
         [an_issue 1 (Some 1); an_issue 2 (Some 2); an_issue 3 (Some 7);
          an_issue 4 (Some 4); an_issue 5 (Some 5); an_issue 6 (Some 6);
          an_issue 7 (Some 3); an_issue 8 (Some 8)]).
Proof.
  split; [| split].
  - intros contexts st. split.
    + apply assign_length.
    + intros i context. apply assign_keeps_numbered.
  - intros contexts st. now apply assign_ids.
  - split; reflexivity.
Qed.

Lemma assign_consumes_gaps_from_end_witness :
  nth_error
    (fst (assign [an_issue 1 None; an_issue 2 (Some 5)]
            {| st_gaps := [3; 7]; st_nextId := 0 |})) 1
  = Some (an_issue 2 (Some 5)).
Proof.
  apply (proj2 (proj1 assign_consumes_gaps_from_end
                  [an_issue 1 None; an_issue 2 (Some 5)]
                  {| st_gaps := [3; 7]; st_nextId := 0 |})).
  - reflexivity.
  - reflexivity.
Defined.

(** C1: what the code does where the claim fails.  Issue 1 holds canonical
    ID 1 and issue 2 holds none: there is no gap, the counter starts from
    [nextId = 0], and issue 2 receives 1, the ID issue 1 holds. *)
Theorem initialise_counter_starts_at_zero :
  let contexts := [an_issue 1 (Some 1); an_issue 2 None] in
  knownIds contexts = [1]
  /\ gaps_of (knownIds contexts) (Z.of_nat (List.length contexts)) = []
  /\ initialise contexts = [an_issue 1 (Some 1); an_issue 2 (Some 1)].
Proof.
  repeat split; reflexivity.
Qed.

(** C3: what the code does where the claim fails.  [sort()] with no
    comparator orders the IDs as strings, so 10 comes before 2. *)
Theorem knownIds_sorted_as_strings :
  let contexts := [an_issue 1 (Some 2); an_issue 2 (Some 10)] in
  knownIds contexts = [10; 2] /\ ~ Sorted Z.le (knownIds contexts).
Proof.
  split; [reflexivity |].
  intro H. change (Sorted Z.le [10; 2]) in H.
  inversion H as [| ? ? _ Hhd]; subst.
  inversion Hhd as [| ? ? Hle]; subst. lia.
Qed.

End InitialiseFacts.

(** ** Strings: splitting, joining and [parseInt] *)

Module TextFacts.

Import Text Samples Codec.

Lemma append_nil_r (s : string) : (s ++ "")%string = s.
Proof. induction s as [| c s IH]; simpl; [reflexivity | now rewrite IH]. Qed.

Lemma append_assoc (a b c : string) : ((a ++ b) ++ c)%string = (a ++ (b ++ c))%string.
Proof. induction a as [| x a IH]; simpl; [reflexivity | now rewrite IH]. Qed.

Lemma length_append (a b : string) :
  String.length (a ++ b) = (String.length a + String.length b)%nat.
Proof. induction a as [| x a IH]; simpl; [reflexivity | now rewrite IH]. Qed.

Lemma snoc_append (cur : string) (c : ascii) (rest : string) :
  (snoc cur c ++ rest)%string = (cur ++ String c rest)%string.
Proof. unfold snoc. now rewrite append_assoc. Qed.

Lemma prefix_nil (s : string) : prefix "" s = true.
Proof. destruct s; reflexivity. Qed.

(** A pattern no longer than [a] is matched inside [a]. *)
Lemma prefix_app_long (p : string) :
  forall a b, (String.length p <= String.length a)%nat ->
              prefix p (a ++ b) = prefix p a.
Proof.
  induction p as [| x p IH]; intros a b Hlen.
  - now rewrite !prefix_nil.
  - destruct a as [| y a]; simpl in Hlen; [lia |].
    simpl. destruct (ascii_dec x y); [apply IH; lia | reflexivity].
Qed.

Lemma split_go_step (sep cur : string) (c : ascii) (rest : string) :
  split_go sep 0 cur (String c rest)
  = if prefix sep (String c rest)
    then cur :: split_go sep (pred (String.length sep)) "" rest
    else split_go sep 0 (snoc cur c) rest.
Proof. reflexivity. Qed.

Lemma occurs_cons (sep : string) (c : ascii) (rest : string) :
  occurs sep (String c rest) = prefix sep (String c rest) || occurs sep rest.
Proof. reflexivity. Qed.

(** Without an occurrence of the separator there is one piece. *)
Lemma split_go_absent (sep : string) :
  forall s cur, occurs sep s = false -> split_go sep 0 cur s = [(cur ++ s)%string].
Proof.
  induction s as [| c s IH]; intros cur Hocc.
  - simpl. now rewrite append_nil_r.
  - rewrite occurs_cons in Hocc. apply orb_false_iff in Hocc as [Hp Ho].
    rewrite split_go_step, Hp, (IH _ Ho), snoc_append. reflexivity.
Qed.

Lemma separator_chars (rest : string) :
  (SEPARATOR ++ rest)%string
  = String CR (String LF (String "-" (String "-" (String "-"
      (String CR (String LF rest)))))).
Proof. reflexivity. Qed.

Lemma prefix_separator_self (rest : string) :
  prefix SEPARATOR (SEPARATOR ++ rest) = true.
Proof. destruct rest; reflexivity. Qed.

Lemma prefix_cons (x : ascii) (p : string) (y : ascii) (s : string) :
  prefix (String x p) (String y s) = Ascii.eqb x y && prefix p s.
Proof.
  simpl. destruct (ascii_dec x y) as [-> | Hne].
  - now rewrite Ascii.eqb_refl.
  - apply Ascii.eqb_neq in Hne. now rewrite Hne.
Qed.

Lemma separator_literal :
  SEPARATOR
  = String CR (String LF (String "-" (String "-" (String "-"
      (String CR (String LF EmptyString)))))).
Proof. reflexivity. Qed.

(** Settles a comparison of the separator with a text whose first
    characters are variables. *)
Ltac compare_chars :=
  rewrite ?prefix_cons;
  repeat match goal with
         | |- context [Ascii.eqb ?a ?b] =>
             is_var b; destruct (Ascii.eqb_spec a b); [subst b | reflexivity]
         end;
  reflexivity.

(** A section of one to four characters cannot start a separator that runs
    into the real one: the separator repeats itself only after five. *)
Lemma prefix_separator_short (t rest : string) :
  t <> EmptyString -> (String.length t <= 4)%nat ->
  prefix SEPARATOR (t ++ SEPARATOR ++ rest) = false.
Proof.
  intros Hne Hlen. rewrite separator_chars, separator_literal.
  destruct t as [| c1 [| c2 [| c3 [| c4 [| c5 t]]]]];
    [congruence | | | | | simpl in Hlen; lia];
    cbn [append]; compare_chars.
Qed.

Lemma prefix_separator_inside (t rest : string) :
  t <> EmptyString ->
  prefix SEPARATOR (t ++ CRLF) = false ->
  prefix SEPARATOR (t ++ SEPARATOR ++ rest) = false.
Proof.
  intros Hne Hp.
  destruct (le_lt_dec 5 (String.length t)) as [Hlong | Hshort].
  - change (SEPARATOR ++ rest)%string
      with (CRLF ++ String "-" (String "-" (String "-" (CRLF ++ rest))))%string.
    rewrite <- append_assoc, prefix_app_long; [exact Hp |].
    rewrite length_append. simpl. lia.
  - apply prefix_separator_short; [assumption | lia].
Qed.

(** A section that, with a line end after it, holds no separator is cut
    off where the real separator starts. *)
Lemma split_go_found :
  forall s cur rest,
    occurs SEPARATOR (s ++ CRLF) = false ->
    split_go SEPARATOR 0 cur (s ++ SEPARATOR ++ rest)
    = (cur ++ s)%string :: split_go SEPARATOR 0 "" rest.
Proof.
  induction s as [| c s IH]; intros cur rest Hocc.
  - change ("" ++ SEPARATOR ++ rest)%string with (SEPARATOR ++ rest)%string.
    rewrite separator_chars, split_go_step, <- separator_chars,
      prefix_separator_self, append_nil_r.
    reflexivity.
  - change (occurs SEPARATOR (String c s ++ CRLF))
      with (prefix SEPARATOR (String c s ++ CRLF) || occurs SEPARATOR (s ++ CRLF))
      in Hocc.
    apply orb_false_iff in Hocc as [Hp Ho].
    change (String c s ++ SEPARATOR ++ rest)%string
      with (String c (s ++ SEPARATOR ++ rest)).
    rewrite split_go_step.
    change (String c (s ++ SEPARATOR ++ rest))
      with (String c s ++ SEPARATOR ++ rest)%string.
    rewrite (prefix_separator_inside (String c s) rest); [| discriminate | exact Hp].
    rewrite (IH _ _ Ho), snoc_append. reflexivity.
Qed.

Lemma join_cons (sep s : string) (rest : list string) :
  rest <> [] -> join sep (s :: rest) = (s ++ sep ++ join sep rest)%string.
Proof. destruct rest; [congruence | reflexivity]. Qed.

(** Splitting undoes joining when no section, with a line end after it,
    holds a separator, and the last piece holds none. *)
Lemma split_join (sections : list string) (last : string) :
  Forall (fun s => occurs SEPARATOR (s ++ CRLF) = false) sections ->
  occurs SEPARATOR last = false ->
  split SEPARATOR (join SEPARATOR (sections ++ [last])) = sections ++ [last].
Proof.
  intros Hall Hlast. unfold split.
  induction Hall as [| s rest Hs Hrest IH].
  - simpl. now rewrite split_go_absent.
  - change ((s :: rest) ++ [last]) with (s :: (rest ++ [last])).
    rewrite join_cons by (destruct rest; discriminate).
    rewrite split_go_found by exact Hs.
    now rewrite IH.
Qed.

(** An occurrence of the separator starts at a carriage return. *)
Lemma occurs_app_free (a b : string) :
  free_of CR a = true -> occurs SEPARATOR (a ++ b) = occurs SEPARATOR b.
Proof.
  induction a as [| c a IH]; intro Hfree; [reflexivity |].
  simpl in Hfree. apply andb_true_iff in Hfree as [Hc Ha].
  change (occurs SEPARATOR (String c a ++ b))
    with (prefix SEPARATOR (String c (a ++ b)) || occurs SEPARATOR (a ++ b)).
  rewrite (IH Ha).
  rewrite separator_literal at 1. rewrite prefix_cons.
  destruct (Ascii.eqb_spec CR c) as [<- |]; [discriminate Hc | reflexivity].
Qed.

End TextFacts.

(** ** Decimal numerals *)

Module NumeralFacts.

Import Text Samples.

Lemma digits_value_cons (radix acc : Z) (c : ascii) (rest : string) :
  digits_value radix acc (String c rest)
  = match digit_value radix c with
    | Some d => digits_value radix (acc * radix + d) rest
    | None => acc
    end.
Proof. reflexivity. Qed.

(** Reads the digit at the head of the text in the goal. *)
Ltac read_digit :=
  simpl NilEmpty.string_of_uint; rewrite digits_value_cons;
  match goal with
  | |- context [digit_value 10 ?c] =>
      let v := eval vm_compute in (digit_value 10 c) in
      change (digit_value 10 c) with v
  end;
  cbv beta iota.

Lemma digits_value_acc (d : Decimal.uint) :
  forall acc : positive,
    digits_value 10 (Zpos acc) (NilEmpty.string_of_uint d)
    = Zpos (Pos.of_uint_acc d acc).
Proof.
  induction d as [| d IH | d IH | d IH | d IH | d IH | d IH | d IH | d IH | d IH | d IH];
    intro acc; [reflexivity | ..];
    read_digit; cbn [Pos.of_uint_acc]; rewrite <- IH; f_equal; lia.
Qed.

Lemma digits_value_uint (d : Decimal.uint) :
  digits_value 10 0 (NilEmpty.string_of_uint d) = Z.of_N (Pos.of_uint d).
Proof.
  induction d as [| d IH | d IH | d IH | d IH | d IH | d IH | d IH | d IH | d IH | d IH];
    [reflexivity | read_digit; exact IH | ..];
    read_digit; cbn [Pos.of_uint Z.of_N];
    rewrite <- digits_value_acc; reflexivity.
Qed.

(** [parseInt] on digits, bare and after a minus sign. *)
Lemma parseInt_digits (d : Decimal.uint) :
  d <> Decimal.Nil ->
  parseInt (NilEmpty.string_of_uint d)
  = Num (1 * digits_value 10 0 (NilEmpty.string_of_uint d))
  /\ parseInt (String "-" (NilEmpty.string_of_uint d))
     = Num (-1 * digits_value 10 0 (NilEmpty.string_of_uint d)).
Proof.
  intro Hd.
  destruct d as [| d | d | d | d | d | d | d | d | d | d]; [congruence | ..];
    destruct d; split; reflexivity.
Qed.

(** [parseInt] reads back what [toString] writes. *)
Lemma parseInt_toString (n : Z) : parseInt (toString n) = Num n.
Proof.
  unfold toString. destruct n as [| p | p]; [reflexivity | |]; simpl Z.to_int;
    simpl NilEmpty.string_of_int;
    destruct (parseInt_digits (Pos.to_uint p) (DecimalPos.Unsigned.to_uint_nonnil p))
      as [Hpos Hneg].
  - rewrite Hpos, digits_value_uint, DecimalPos.Unsigned.of_to. f_equal.
  - rewrite Hneg, digits_value_uint, DecimalPos.Unsigned.of_to. f_equal.
Qed.

Lemma free_of_cons (c d : ascii) (rest : string) :
  free_of c (String d rest) = negb (Ascii.eqb d c) && free_of c rest.
Proof. reflexivity. Qed.

(** A character that is neither a digit nor the minus sign is not written
    by [toString]. *)
Lemma free_of_uint (c : ascii) (d : Decimal.uint) :
  is_digit c = false -> free_of c (NilEmpty.string_of_uint d) = true.
Proof.
  intro Hc.
  induction d as [| d IH | d IH | d IH | d IH | d IH | d IH | d IH | d IH | d IH | d IH];
    [reflexivity | ..];
    simpl NilEmpty.string_of_uint; rewrite free_of_cons, IH, andb_true_r;
    match goal with
    | |- negb (Ascii.eqb ?a c) = true =>
        destruct (Ascii.eqb_spec a c) as [<- |]; [discriminate Hc | reflexivity]
    end.
Qed.

Lemma free_of_toString (c : ascii) (n : Z) :
  is_digit c = false -> Ascii.eqb "-" c = false -> free_of c (toString n) = true.
Proof.
  intros Hc Hminus. unfold toString.
  destruct n as [| p | p]; simpl Z.to_int; simpl NilEmpty.string_of_int.
  - exact (free_of_uint c (Decimal.D0 Decimal.Nil) Hc).
  - now apply free_of_uint.
  - rewrite free_of_cons, Hminus. now apply free_of_uint.
Qed.

End NumeralFacts.

(** ** The reader on the markup [printMetadata] writes *)

Module CheerioFacts.

Import Text Cheerio Samples TextFacts.

Lemma run_app (a b : string) : forall tk, run tk (a ++ b) = run (run tk a) b.
Proof. induction a as [| c a IH]; intro tk; [reflexivity | apply IH]. Qed.

(** Inside a double-quoted attribute value every character but the quote is
    taken as it stands. *)
Lemma run_attr_value (v : string) :
  forall out t name w,
    free_of dquote v = true ->
    run (out, AttrValueDouble t name w) v
    = (out, AttrValueDouble t name (w ++ v)%string).
Proof.
  induction v as [| c v IH]; intros out t name w Hfree.
  - simpl. now rewrite append_nil_r.
  - rewrite NumeralFacts.free_of_cons in Hfree.
    apply andb_true_iff in Hfree as [Hc Hv].
    apply negb_true_iff in Hc.
    change (run (out, AttrValueDouble t name w) (String c v))
      with (run (if Ascii.eqb c dquote
                 then (out, AfterAttrValue (add_attrib t name w))
                 else (out, AttrValueDouble t name (snoc w c))) v).
    rewrite Hc, (IH _ _ _ _ Hv), snoc_append. reflexivity.
Qed.

(** The tokenizer on the metadata markup, from any point between two
    tags: the tokens it adds, the last one first. *)
Lemma run_fragment (v : string) (out : list token) (text : string) :
  free_of dquote v = true ->
  run (out, Data text) (fragment v)
  = ([EndTag "details"; EndTag "ul"; EndTag "li"; EndTag "a"; StartTag "a" [];
      Characters "Canonical link: "; StartTag "li" [("data-canonical-id", v)];
      StartTag "ul" []; EndTag "summary"; Characters "Issue metadata";
      StartTag "summary" []; StartTag "details" []] ++ flush out text,
     Data "").
Proof.
  intro Hfree. unfold fragment.
  rewrite (run_app fragment_open), (run_app v).
  change (run (out, Data text) fragment_open)
    with ([StartTag "ul" []; EndTag "summary"; Characters "Issue metadata";
           StartTag "summary" []; StartTag "details" []] ++ flush out text,
          AttrValueDouble {| closing := false; tag_name := "li"; tag_attribs := [] |}
            "data-canonical-id" "").
  rewrite (run_attr_value v _ _ _ _ Hfree).
  reflexivity.
Qed.

(** The selector finds the one entry, with the attribute text as it is,
    in the bare markup and behind the marker comment. *)
Lemma select_fragment (v : string) :
  free_of dquote v = true ->
  select_details_ul_li (load (fragment v)) = [[("data-canonical-id", v)]]
  /\ select_details_ul_li (load (Codec.DO_NOT_EDIT ++ fragment v))
     = [[("data-canonical-id", v)]].
Proof.
  intro Hfree. unfold load, tokenize. split.
  - rewrite (run_fragment v _ _ Hfree). reflexivity.
  - rewrite (run_app Codec.DO_NOT_EDIT).
    change (run ([], Data "") Codec.DO_NOT_EDIT)
      with ([CommentTok " DO NOT EDIT "], Data CRLF).
    rewrite (run_fragment v _ _ Hfree). reflexivity.
Qed.

End CheerioFacts.

(** ** Body and metadata codecs *)

Module CodecFacts.

Import Text Cheerio Codec Samples TextFacts NumeralFacts CheerioFacts.

Lemma printMetadata_fragment (n : Z) :
  printMetadata (Some {| canonicalId := Some n |}) = Some (fragment (toString n)).
Proof.
  unfold printMetadata, addField, append_child, html, fragment,
    fragment_open, fragment_close.
  cbn [canonicalId app map outer_html render_attribs String.concat append].
  rewrite ?append_nil_r, !append_assoc. reflexivity.
Qed.

Lemma printMetadata_default :
  printMetadata (Some newMetadata) = Some empty_block.
Proof. reflexivity. Qed.

(** What [parseMetadata] reads from the metadata markup: the number
    [parseInt] finds in the attribute text, if it is at least 1. *)
Lemma parseMetadata_fragment (v : string) :
  free_of dquote v = true ->
  parseMetadata (fragment v)
  = Some {| canonicalId := normalise (Some (parseInt v)) |}
  /\ parseMetadata (DO_NOT_EDIT ++ fragment v)
     = Some {| canonicalId := normalise (Some (parseInt v)) |}.
Proof.
  intro Hfree. unfold parseMetadata.
  destruct (select_fragment v Hfree) as [-> ->].
  split; reflexivity.
Qed.

(** The marked metadata block holds no separator. *)
Lemma marked_fragment_no_separator (v : string) :
  free_of CR v = true -> occurs SEPARATOR (DO_NOT_EDIT ++ fragment v) = false.
Proof.
  intro Hfree.
  change (DO_NOT_EDIT ++ fragment v)%string
    with ("<!-- DO NOT EDIT -->"
          ++ String CR (String LF fragment_open ++ v ++ fragment_close))%string.
  rewrite occurs_app_free by reflexivity.
  rewrite occurs_cons.
  change (prefix SEPARATOR (String CR (String LF fragment_open ++ v ++ fragment_close)))
    with false.
  rewrite orb_false_l, !occurs_app_free by (assumption || reflexivity).
  reflexivity.
Qed.

Lemma marked_fragment_nonempty (v : string) :
  nonempty (DO_NOT_EDIT ++ fragment v) = true /\ nonempty (fragment v) = true.
Proof. split; reflexivity. Qed.

Lemma printIssueBody_numbered (ss : list string) (n : Z) :
  printIssueBody {| sections := ss; metadata := {| canonicalId := Some n |} |}
  = join SEPARATOR (ss ++ [(DO_NOT_EDIT ++ fragment (toString n))%string]).
Proof.
  unfold printIssueBody. cbn [sections metadata].
  rewrite printMetadata_fragment.
  now rewrite (proj2 (marked_fragment_nonempty (toString n))).
Qed.

(** C2: what the code does where the claim fails.  [printMetadata] is given
    the default record, which is an object and so is not [null]: it returns
    the block with an empty list and [printIssueBody] appends that block.
    Reading the text back finds no list entry in the block, so the metadata
    is the default and the block stays as one more content section. *)
Theorem default_metadata_block_is_printed :
  printMetadata (Some newMetadata) = Some empty_block
  /\ (forall ss,
        printIssueBody {| sections := ss; metadata := newMetadata |}
        = join SEPARATOR (ss ++ [(DO_NOT_EDIT ++ empty_block)%string]))
  /\ printIssueBody {| sections := ["text"]; metadata := newMetadata |}
     = ("text" ++ SEPARATOR ++ DO_NOT_EDIT ++ empty_block)%string
  /\ (forall ss,
        Forall (fun s => occurs SEPARATOR (s ++ CRLF) = false) ss ->
        parseIssueBody (printIssueBody {| sections := ss; metadata := newMetadata |})
        = {| sections := ss ++ [(DO_NOT_EDIT ++ empty_block)%string];
             metadata := newMetadata |}).
Proof.
  split; [reflexivity |]. split; [intro ss; reflexivity |].
  split; [reflexivity |].
  intros ss Hss.
  change (printIssueBody {| sections := ss; metadata := newMetadata |})
    with (join SEPARATOR (ss ++ [(DO_NOT_EDIT ++ empty_block)%string])).
  unfold parseIssueBody.
  rewrite (split_join ss _ Hss) by reflexivity.
  rewrite last_last.
  change (nonempty (DO_NOT_EDIT ++ empty_block)) with true. cbv iota.
  change (parseMetadata (DO_NOT_EDIT ++ empty_block)) with (@None IssueMetadata).
  reflexivity.
Qed.

(** C5, as stated, fails: a section that holds the separator comes back as
    two sections. *)
Lemma roundtrip_splits_section :
  let b := {| sections := [("a" ++ SEPARATOR ++ "b")%string];
              metadata := {| canonicalId := Some 42 |} |} in
  parseIssueBody (printIssueBody b)
  = {| sections := ["a"; "b"]; metadata := {| canonicalId := Some 42 |} |}
  /\ parseIssueBody (printIssueBody b) <> b.
Proof.
  assert (H : parseIssueBody
                (printIssueBody
                   {| sections := [("a" ++ SEPARATOR ++ "b")%string];
                      metadata := {| canonicalId := Some 42 |} |})
              = {| sections := ["a"; "b"];
                   metadata := {| canonicalId := Some 42 |} |})
    by (vm_compute; reflexivity).
  cbv zeta. rewrite H. split; [reflexivity | discriminate].
Qed.

(** C5, amended: when the canonical ID is an integer from 1 to
    [2^53 - 1], the range in which the program writes a number digit for
    digit, and no section, with a line end after it, holds the separator
    (no section holds the separator or ends in a line end and three
    dashes), [parseIssueBody (printIssueBody b)] is [b]. *)
Theorem parse_print_roundtrip (b : IssueBody) (n : Z) :
  canonicalId (metadata b) = Some n ->
  1 <= n <= MAX_SAFE_INTEGER ->
  Forall (fun s => occurs SEPARATOR (s ++ CRLF) = false) (sections b) ->
  parseIssueBody (printIssueBody b) = b.
Proof.
  destruct b as [ss [id]]. cbn [sections metadata canonicalId].
  intros -> [Hn _] Hss.
  rewrite printIssueBody_numbered. unfold parseIssueBody.
  assert (Hcr : free_of CR (toString n) = true)
    by (apply free_of_toString; reflexivity).
  assert (Hdq : free_of dquote (toString n) = true)
    by (apply free_of_toString; reflexivity).
  rewrite (split_join ss _ Hss (marked_fragment_no_separator _ Hcr)).
  rewrite last_last, (proj1 (marked_fragment_nonempty _)).
  rewrite (proj2 (parseMetadata_fragment _ Hdq)), parseInt_toString.
  rewrite removelast_last. unfold normalise.
  destruct (Z.ltb_spec n 1); [lia | reflexivity].
Qed.

Lemma parse_print_roundtrip_witness :
  parseIssueBody
    (printIssueBody
       {| sections := ["Steps to reproduce"; "---"];
          metadata := {| canonicalId := Some 42 |} |})
  = {| sections := ["Steps to reproduce"; "---"];
       metadata := {| canonicalId := Some 42 |} |}.
Proof.
  apply (parse_print_roundtrip
           {| sections := ["Steps to reproduce"; "---"];
              metadata := {| canonicalId := Some 42 |} |} 42).
  - reflexivity.
  - split; [lia | discriminate].
  - repeat constructor.
Defined.

(** C7, as stated, fails: [parseInt] stops at the first character that is
    not a digit, so the attribute text [12abc], which is not a numeral, is
    read as 12. *)
Lemma parseMetadata_reads_leading_digits :
  numeric "12abc" = false
  /\ parseMetadata (fragment "12abc") = Some {| canonicalId := Some 12 |}.
Proof. split; vm_compute; reflexivity. Qed.

(** C7, amended: canonical ID 42 is written as markup that reads back as 42;
    and for the markup [printMetadata] writes, with an attribute text in
    place of the number that is ASCII, holds no double quote and no
    ampersand and does not open with a brace or a bracket,
    [parseMetadata] returns an absent [canonicalId] when [parseInt] finds
    no number at the start of the text or finds one below 1, and returns
    the number [parseInt] finds when it is at least 1 and at most
    [2^53 - 1]. *)
Theorem parseMetadata_canonical_id :
  (printMetadata (Some {| canonicalId := Some 42 |}) = Some (fragment "42")
   /\ parseMetadata (fragment "42") = Some {| canonicalId := Some 42 |})
  /\ (forall v,
        plain_ascii v = true ->
        parseInt v = NaN \/ (exists n, parseInt v = Num n /\ n < 1) ->
        parseMetadata (fragment v) = Some {| canonicalId := None |})
  /\ (forall v n,
        plain_ascii v = true ->
        parseInt v = Num n -> 1 <= n <= MAX_SAFE_INTEGER ->
        parseMetadata (fragment v) = Some {| canonicalId := Some n |}).
Proof.
  assert (Hplain : forall v, plain_ascii v = true -> free_of dquote v = true).
  { intros v H. unfold plain_ascii in H.
    apply andb_true_iff in H as [H _]. apply andb_true_iff in H as [H _].
    now apply andb_true_iff in H as [_ H]. }
  split; [split; vm_compute; reflexivity |]. split.
  - intros v Hv Hparse.
    rewrite (proj1 (parseMetadata_fragment v (Hplain v Hv))).
    destruct Hparse as [-> | [n [-> Hn]]]; [reflexivity |].
    unfold normalise. destruct (Z.ltb_spec n 1); [reflexivity | lia].
  - intros v n Hv Hparse [Hn _].
    rewrite (proj1 (parseMetadata_fragment v (Hplain v Hv))), Hparse.
    unfold normalise. destruct (Z.ltb_spec n 1); [lia | reflexivity].
Qed.

Lemma parseMetadata_canonical_id_witness :
  parseMetadata (fragment "forty-two") = Some {| canonicalId := None |}
  /\ parseMetadata (fragment "-7") = Some {| canonicalId := None |}
  /\ parseMetadata (fragment "7 or so") = Some {| canonicalId := Some 7 |}.
Proof.
  destruct parseMetadata_canonical_id as [_ [Habsent Hpresent]].
  split; [| split].
  - apply (Habsent "forty-two"); [reflexivity | left; reflexivity].
  - apply (Habsent "-7"); [reflexivity |].
    right. exists (-7). split; [reflexivity | lia].
  - apply (Hpresent "7 or so" 7);
      [reflexivity | reflexivity | split; [lia | discriminate]].
Defined.

End CodecFacts.

(** ** Issue cache synchroniser *)

Module SynchroniserFacts.

Import Codec Synchroniser Samples SyncSamples.

Lemma with_documents_same (w : World) :
  with_documents w (documents (collection w)) = w.
Proof. destruct w as [[docs idx] calls n]. reflexivity. Qed.

Lemma with_documents_twice (w : World) (docs docs' : list Issue) :
  with_documents (with_documents w docs) docs' = with_documents w docs'.
Proof. reflexivity. Qed.



Lemma fetched_repo (github : GitHubAPI) (o r : string) :
  Forall (fun doc => owner doc = o /\ repo doc = r) (fetched github o r).
Proof.
  unfold fetched. apply Forall_forall. intros doc Hin.
  apply in_map_iff in Hin as [raw [<- _]]. split; reflexivity.
Qed.

Lemma length_zero_nil {A : Type} (l : list A) :
  Nat.eqb (List.length l) 0 = true <-> l = [].
Proof. destruct l; simpl; split; congruence. Qed.

(** The body of [getIssuesforRepo] for a repository that is not the
    experimental one, with the store and tracker calls carried out. *)
Lemma getIssuesforRepo_steps (github : GitHubAPI) (repository : Repository)
      (w : World) :
  repo_name repository <> "experimental" ->
  getIssuesforRepo github repository w
  = let o := owner_login repository in
    let r := repo_name repository in
    let existing := filter (same_repo o r) (documents (collection w)) in
    let issues := fetched github o r in
    let w' := after_miss w o r (documents (collection w)) in
    if negb (Nat.eqb (List.length existing) 0)
    then (Returned (map (in_context github) existing), w)
    else if Nat.eqb (List.length issues) 0 then (Returned [], w')
    else match insertMany issues w' with
         | (Returned _, w'') => (Returned (map (in_context github) issues), w'')
         | (Thrown reason, w'') => (Thrown reason, w'')
         end.
Proof.
  intro Hname. apply String.eqb_neq in Hname.
  unfold getIssuesforRepo, bind. rewrite Hname.
  unfold ret at 1. unfold find. cbv zeta.
  destruct (negb (Nat.eqb (List.length _) 0)); [reflexivity |].
  unfold createIndexes, getIssuesFromGithub, bind, paginate.
  unfold ret at 1.
  cbn [collection tracker_calls index_calls documents].
  fold (fetched github (owner_login repository) (repo_name repository)).
  destruct (Nat.eqb (List.length _) 0); reflexivity.
Qed.

(** The world [getIssuesforRepo] reads the cache in: for the experimental
    repository its documents are gone. *)
Lemma getIssuesforRepo_steps_all (github : GitHubAPI) (repository : Repository)
      (w : World) :
  getIssuesforRepo github repository w
  = let o := owner_login repository in
    let r := repo_name repository in
    let w0 :=
      if String.eqb r "experimental"
      then with_documents w
             (filter (fun doc => negb (same_repo o r doc)) (documents (collection w)))
      else w in
    let existing := filter (same_repo o r) (documents (collection w0)) in
    let issues := fetched github o r in
    let w' := after_miss w0 o r (documents (collection w0)) in
    if negb (Nat.eqb (List.length existing) 0)
    then (Returned (map (in_context github) existing), w0)
    else if Nat.eqb (List.length issues) 0 then (Returned [], w')
    else match insertMany issues w' with
         | (Returned _, w'') => (Returned (map (in_context github) issues), w'')
         | (Thrown reason, w'') => (Thrown reason, w'')
         end.
Proof.
  unfold getIssuesforRepo, bind. cbv zeta.
  destruct (String.eqb (repo_name repository) "experimental").
  - unfold deleteMany at 1. unfold find. cbv beta iota.
    destruct (negb (Nat.eqb (List.length _) 0)); [reflexivity |].
    unfold createIndexes, getIssuesFromGithub, bind, paginate.
    unfold ret at 1.
    cbn [collection tracker_calls index_calls documents with_documents].
    fold (fetched github (owner_login repository) (repo_name repository)).
    destruct (Nat.eqb (List.length _) 0); reflexivity.
  - unfold ret at 1. unfold find. cbv beta iota.
    destruct (negb (Nat.eqb (List.length _) 0)); [reflexivity |].
    unfold createIndexes, getIssuesFromGithub, bind, paginate.
    unfold ret at 1.
    cbn [collection tracker_calls index_calls documents].
    fold (fetched github (owner_login repository) (repo_name repository)).
    destruct (Nat.eqb (List.length _) 0); reflexivity.
Qed.








End SynchroniserFacts.

(** ** More on the allocator *)

Module AllocatorMore.

Import Allocator MoreVocabulary AllocatorFacts.

Lemma zrange_cons (first : Z) (n : nat) :
  zrange first (S n) = first :: zrange (first + 1) n.
Proof.
  unfold zrange. simpl. f_equal; [lia |].
  rewrite <- seq_shift, map_map. apply map_ext. intro j. lia.
Qed.

Lemma zrange_bounds (first : Z) (n : nat) (j : Z) :
  In j (zrange first n) -> first <= j < first + Z.of_nat n.
Proof.
  unfold zrange. intro H. apply in_map_iff in H as [i [<- Hi]].
  apply in_seq in Hi. lia.
Qed.

Lemma used_in (array : list Z) (j : Z) : used array j = true <-> In j array.
Proof.
  unfold used. rewrite existsb_exists. split.
  - intros [x [Hx Heq]]. apply Z.eqb_eq in Heq. now subst.
  - intro H. exists j. split; [assumption | apply Z.eqb_refl].
Qed.

Lemma in_firstn_succ {A : Type} (l : list A) :
  forall idx x, In x (firstn (S idx) l) ->
                In x (firstn idx l) \/ nth_error l idx = Some x.
Proof.
  induction l as [| a l IH]; intros idx x Hin; [destruct Hin |].
  destruct idx as [| idx].
  - destruct Hin as [-> | []]. now right.
  - destruct Hin as [-> | Hin]; [left; now left |].
    destruct (IH idx x Hin) as [H | H]; [left; now right | now right].
Qed.

(** In a strictly ascending array what follows an element is larger. *)
Lemma sorted_after (l : list Z) :
  StronglySorted Z.lt l ->
  forall idx a y, nth_error l idx = Some a -> In y (skipn (S idx) l) -> a < y.
Proof.
  induction 1 as [| b l Hs IH Hall]; intros idx a y Hnth Hin.
  - destruct idx; discriminate.
  - destruct idx as [| idx].
    + injection Hnth as <-. rewrite Forall_forall in Hall. now apply Hall.
    + now apply (IH idx).
Qed.

Lemma skipn_head {A : Type} (l : list A) :
  forall idx x, In x (skipn idx l) ->
                nth_error l idx = Some x \/ In x (skipn (S idx) l).
Proof.
  induction l as [| a l IH]; intros idx x Hin.
  - destruct idx; destruct Hin.
  - destruct idx as [| idx].
    + destruct Hin as [-> | Hin]; [now left | now right].
    + now apply IH.
Qed.

Lemma nth_error_in_skipn {A : Type} (l : list A) :
  forall idx a, nth_error l idx = Some a -> In a (skipn idx l).
Proof.
  induction l as [| b l IH]; intros idx a Hnth.
  - destruct idx; discriminate.
  - destruct idx as [| idx]; [injection Hnth as ->; now left | now apply IH].
Qed.

(** The [for] loop on a strictly ascending array: from a state where the
    elements before [arrayIndex] are below [i] and the others are not, it
    returns the gaps it has and the unused numbers from [i] on, cut at
    [maxGaps]. *)
Lemma scan_first_unused (array : list Z) (maxGaps m : Z) :
  StronglySorted Z.lt array ->
  last_elem array = Some m ->
  forall (fuel : nat) (i : Z) (arrayIndex : nat) (gaps : list Z),
    (Z.to_nat (m - i) <= fuel)%nat ->
    Z.of_nat (List.length gaps) < maxGaps ->
    (forall x, In x (firstn arrayIndex array) -> x < i) ->
    (forall x, In x (skipn arrayIndex array) -> i <= x) ->
    scan fuel array maxGaps i arrayIndex gaps
    = firstn (Z.to_nat maxGaps)
        (gaps ++ filter (fun j => negb (used array j))
                   (zrange i (Z.to_nat (m - i)))).
Proof.
  intros Hsorted Hlast.
  assert (Hdone : forall i gaps,
             Z.of_nat (List.length gaps) < maxGaps -> m <= i ->
             gaps = firstn (Z.to_nat maxGaps)
                      (gaps ++ filter (fun j => negb (used array j))
                                 (zrange i (Z.to_nat (m - i))))).
  { intros i gaps Hlen Hmi.
    replace (Z.to_nat (m - i)) with 0%nat by lia.
    simpl. rewrite app_nil_r, firstn_all2; [reflexivity | lia]. }
  induction fuel as [| fuel IH]; intros i idx gaps Hfuel Hlen Hbefore Hafter.
  - simpl. apply Hdone; [assumption | lia].
  - simpl. rewrite Hlast. simpl.
    destruct (Z.ltb_spec i m) as [Him |]; [| now apply Hdone].
    replace (Z.to_nat (m - i)) with (S (Z.to_nat (m - (i + 1)))) by lia.
    rewrite zrange_cons.
    destruct (eq_undef i (nth_error array idx)) eqn:Heq.
    + assert (Hnth : nth_error array idx = Some i).
      { destruct (nth_error array idx) as [a |]; [| discriminate].
        simpl in Heq. apply Z.eqb_eq in Heq. now subst. }
      assert (Hused : used array i = true).
      { apply used_in. eapply nth_error_In. exact Hnth. }
      simpl filter. rewrite Hused. simpl negb. cbv iota.
      destruct (Z.eqb_spec (Z.of_nat (List.length gaps)) maxGaps); [lia |].
      apply IH; [lia | assumption | |].
      * intros x Hx. apply in_firstn_succ in Hx as [Hx | Hx].
        -- specialize (Hbefore x Hx). lia.
        -- rewrite Hnth in Hx. injection Hx as <-. lia.
      * intros x Hx. pose proof (sorted_after array Hsorted idx i x Hnth Hx). lia.
    + assert (Hfree : ~ In i array).
      { intro Hin. rewrite <- (firstn_skipn idx array) in Hin.
        apply in_app_or in Hin as [Hin | Hin].
        - specialize (Hbefore i Hin). lia.
        - apply skipn_head in Hin as [Hnth | Hin].
          + rewrite Hnth in Heq. simpl in Heq. rewrite Z.eqb_refl in Heq.
            discriminate.
          + destruct (nth_error array idx) as [a |] eqn:Hnth.
            * pose proof (sorted_after array Hsorted idx a i Hnth Hin).
              pose proof (Hafter a (nth_error_in_skipn array idx a Hnth)).
              lia.
            * apply nth_error_None in Hnth.
              rewrite skipn_all2 in Hin by lia. destruct Hin. }
      assert (Hunused : used array i = false).
      { destruct (used array i) eqn:Hu; [| reflexivity].
        apply used_in in Hu. contradiction. }
      simpl filter. rewrite Hunused. simpl negb. cbv iota.
      assert (Hlen' : Z.of_nat (List.length (gaps ++ [i]))
                      = Z.of_nat (List.length gaps) + 1).
      { rewrite length_app. simpl. lia. }
      replace (gaps ++ i :: filter (fun j => negb (used array j))
                            (zrange (i + 1) (Z.to_nat (m - (i + 1)))))
        with ((gaps ++ [i]) ++ filter (fun j => negb (used array j))
                                 (zrange (i + 1) (Z.to_nat (m - (i + 1)))))
        by (rewrite <- app_assoc; reflexivity).
      destruct (Z.eqb_spec (Z.of_nat (List.length (gaps ++ [i]))) maxGaps) as [Hk |].
      * replace (Z.to_nat maxGaps) with (List.length (gaps ++ [i]) + 0)%nat by lia.
        rewrite firstn_app_2. simpl. now rewrite app_nil_r.
      * apply IH; [lia | lia | |].
        -- intros x Hx. specialize (Hbefore x Hx). lia.
        -- intros x Hx. specialize (Hafter x Hx).
           assert (x <> i).
           { intros ->. apply Hfree.
             rewrite <- (firstn_skipn idx array). apply in_or_app. now right. }
           lia.
Qed.

Lemma shift_leading_sorted (array : list Z) :
  StronglySorted Z.lt array -> StronglySorted Z.lt (shift_leading array).
Proof.
  induction 1 as [| x rest Hs IH Hall]; [constructor |].
  simpl. destruct (x <? 1); [exact IH | now constructor].
Qed.

Lemma shift_leading_sorted_positive (array : list Z) :
  StronglySorted Z.lt array -> Forall (fun u => 1 <= u) (shift_leading array).
Proof.
  induction 1 as [| x rest Hs IH Hall]; [constructor |].
  simpl. destruct (Z.ltb_spec x 1); [exact IH |].
  constructor; [assumption |].
  eapply Forall_impl; [| exact Hall]. simpl. intros; lia.
Qed.

Lemma last_elem_suffix (front back : list Z) :
  back <> [] -> last_elem (front ++ back) = last_elem back.
Proof.
  intro Hne. induction front as [| x front IH]; [reflexivity |].
  simpl. rewrite IH. destruct (front ++ back) eqn:Happ; [| reflexivity].
  apply app_eq_nil in Happ as [_ ->]. contradiction.
Qed.

(** X1: on a strictly ascending array and with [maxGaps >= 1], [findGaps]
    returns the first [maxGaps] integers from 1 up to the last element that
    are not in the array: every value it returns is unused, and when it
    returns fewer than [maxGaps] values no unused one below the last
    element is left out.  Leading values below 1 do not change this. *)
Theorem findGaps_first_unused (array : list Z) (k : Z) :
  StronglySorted Z.lt array ->
  1 <= k ->
  gaps_of array k = firstn (Z.to_nat k) (unused_below_last array).
Proof.
  intros Hsorted Hk.
  destruct (shift_leading_split array) as [dropped [Harray Hdropped]].
  pose proof (shift_leading_sorted array Hsorted) as Hsorted'.
  pose proof (shift_leading_sorted_positive array Hsorted) as Hpos'.
  unfold gaps_of, findGaps, unused_below_last. cbn [snd].
  destruct (last_elem (shift_leading array)) as [m |] eqn:Hlast.
  - assert (Hne : shift_leading array <> []).
    { intro Hnil. rewrite Hnil in Hlast. discriminate. }
    assert (Hlast0 : last_elem array = Some m).
    { rewrite Harray, last_elem_suffix; assumption. }
    rewrite Hlast0. cbn [or_zero].
    rewrite (scan_first_unused (shift_leading array) k m Hsorted' Hlast).
    + simpl app. f_equal. apply filter_ext_in. intros j Hj.
      apply zrange_bounds in Hj. f_equal.
      destruct (used array j) eqn:Hu.
      * apply used_in in Hu. rewrite Harray in Hu.
        apply in_app_or in Hu as [Hu | Hu].
        -- rewrite Forall_forall in Hdropped. specialize (Hdropped j Hu). lia.
        -- now apply used_in.
      * destruct (used (shift_leading array) j) eqn:Hu'; [| reflexivity].
        apply used_in in Hu'.
        assert (In j array) by (rewrite Harray; apply in_or_app; now right).
        apply used_in in H. congruence.
    + unfold scan_fuel. rewrite Hlast. simpl. lia.
    + simpl. lia.
    + intros x [].
    + intros x Hx. simpl in Hx. rewrite Forall_forall in Hpos'. now apply Hpos'.
  - unfold scan_fuel. rewrite Hlast. simpl scan.
    assert (Hnil : shift_leading array = []).
    { destruct (shift_leading array) as [| x l]; [reflexivity |].
      exfalso. clear - Hlast. revert x Hlast.
      induction l as [| y l IH]; intros x Hlast; [discriminate |].
      apply (IH y). exact Hlast. }
    rewrite Hnil, app_nil_r in Harray. subst dropped.
    replace (Z.to_nat (or_zero (last_elem array) - 1)) with 0%nat.
    + simpl. now rewrite firstn_nil.
    + destruct (last_elem array) as [m |] eqn:Hl; [| reflexivity].
      apply last_elem_in in Hl. rewrite Forall_forall in Hdropped.
      specialize (Hdropped m Hl). simpl. lia.
Qed.

Lemma findGaps_first_unused_witness :
  gaps_of [-3; 0; 2; 5; 9] 4
  = firstn (Z.to_nat 4) (unused_below_last [-3; 0; 2; 5; 9]).
Proof.
  apply (findGaps_first_unused [-3; 0; 2; 5; 9] 4).
  - repeat constructor.
  - lia.
Defined.

End AllocatorMore.

(** ** More on the assignment of canonical IDs *)

Module InitialiseMore.

Import Allocator Initialise Samples MoreVocabulary.
Import AllocatorFacts InitialiseFacts AllocatorMore.

Lemma scan_positive (fuel : nat) (array : list Z) (maxGaps : Z) :
  forall i arrayIndex gaps,
    1 <= i -> Forall (fun g => 1 <= g) gaps ->
    Forall (fun g => 1 <= g) (scan fuel array maxGaps i arrayIndex gaps).
Proof.
  induction fuel as [| fuel IH]; intros i idx gaps Hi Hgaps; [exact Hgaps |].
  simpl. destruct (lt_undef i (last_elem array)); [| exact Hgaps].
  destruct (eq_undef i (nth_error array idx)).
  - destruct (_ =? maxGaps); [exact Hgaps | apply IH; [lia | exact Hgaps]].
  - assert (Forall (fun g => 1 <= g) (gaps ++ [i]))
      by (apply Forall_app; split; [exact Hgaps | repeat constructor; lia]).
    destruct (_ =? maxGaps); [assumption | apply IH; [lia | assumption]].
Qed.

Lemma gaps_of_positive (array : list Z) (maxGaps : Z) :
  Forall (fun g => 1 <= g) (gaps_of array maxGaps).
Proof. apply scan_positive; [lia | constructor]. Qed.

Lemma next_id_positive (st : AssignState) :
  Forall (fun g => 1 <= g) (st_gaps st) -> 0 <= st_nextId st ->
  Forall (fun g => 1 <= g) (st_gaps (next_id st)) /\ 1 <= st_nextId (next_id st).
Proof.
  intros Hgaps Hnext. rewrite next_id_rev.
  rewrite Forall_forall in Hgaps.
  destruct (rev (st_gaps st)) as [| g front] eqn:Hrev; simpl.
  - split; [constructor | lia].
  - assert (Hin : forall x, In x (g :: front) -> In x (st_gaps st)).
    { intros x Hx. apply in_rev. now rewrite Hrev. }
    split.
    + apply Forall_forall. intros x Hx. apply Hgaps, Hin. right.
      now apply in_rev.
    + apply Hgaps, Hin. now left.
Qed.

(** The loop leaves no issue without an ID when the gaps are positive. *)
Lemma assign_numbers (contexts : list IssueContext) :
  forall st,
    Forall (fun g => 1 <= g) (st_gaps st) -> 0 <= st_nextId st ->
    Forall (fun c => truthy (context_id c) = true) (fst (assign contexts st))
    /\ Forall (fun id => exists n, id = Some n /\ 1 <= n)
         (assigned_ids contexts (fst (assign contexts st))).
Proof.
  induction contexts as [| c rest IH]; intros st Hgaps Hnext.
  - split; constructor.
  - rewrite fst_assign_cons.
    destruct (truthy (context_id c)) eqn:Hc.
    + destruct (IH st Hgaps Hnext) as [Hall Hids].
      rewrite assigned_ids_cons, Hc. split; [now constructor | exact Hids].
    + destruct (next_id_positive st Hgaps Hnext) as [Hgaps1 Hnext1].
      destruct (IH (next_id st) Hgaps1) as [Hall Hids]; [lia |].
      rewrite assigned_ids_cons, Hc. split.
      * constructor; [| exact Hall].
        change (context_id (set_id c (st_nextId (next_id st))))
          with (Some (st_nextId (next_id st))).
        simpl. apply negb_true_iff, Z.eqb_neq. lia.
      * constructor; [| exact Hids].
        exists (st_nextId (next_id st)). split; [reflexivity | exact Hnext1].
Qed.

Lemma initialise_all_numbered (contexts : list IssueContext) :
  Forall (fun c => truthy (context_id c) = true) (initialise contexts).
Proof.
  destruct contexts as [| c rest]; [constructor |].
  unfold initialise. apply assign_numbers; [apply gaps_of_positive | simpl; lia].
Qed.

(** X2: after [initialise] every issue holds a canonical ID, and every ID
    the loop assigned is an integer of at least 1. *)
Theorem initialise_numbers_every_issue (contexts : list IssueContext) :
  Forall (fun c => truthy (context_id c) = true) (initialise contexts)
  /\ Forall (fun id => exists n, id = Some n /\ 1 <= n)
       (assigned_ids contexts (initialise contexts)).
Proof.
  split; [apply initialise_all_numbered |].
  destruct contexts as [| c rest]; [constructor |].
  unfold initialise. apply assign_numbers; [apply gaps_of_positive | simpl; lia].
Qed.

Lemma assign_erase (contexts : list IssueContext) :
  forall st, map erase_id (fst (assign contexts st)) = map erase_id contexts.
Proof.
  induction contexts as [| c rest IH]; intro st; [reflexivity |].
  rewrite fst_assign_cons.
  destruct (truthy (context_id c)); simpl; now rewrite IH.
Qed.

(** X3: [initialise] changes nothing but canonical IDs: with the IDs taken
    away the list of contexts is as it was (same length, same order, same
    client, owner, repository, issue number and sections). *)
Theorem initialise_changes_ids_only (contexts : list IssueContext) :
  map erase_id (initialise contexts) = map erase_id contexts.
Proof.
  destruct contexts as [| c rest]; [reflexivity |].
  unfold initialise. apply assign_erase.
Qed.

Lemma assign_numbered (contexts : list IssueContext) :
  Forall (fun c => truthy (context_id c) = true) contexts ->
  forall st, fst (assign contexts st) = contexts.
Proof.
  induction 1 as [| c rest Hc Hrest IH]; intro st; [reflexivity |].
  rewrite fst_assign_cons, Hc, IH. reflexivity.
Qed.

(** X4: [initialise] is idempotent: run on its own result it changes
    nothing. *)
Theorem initialise_idempotent (contexts : list IssueContext) :
  initialise (initialise contexts) = initialise contexts.
Proof.
  pose proof (initialise_all_numbered contexts) as Hall.
  destruct (initialise contexts) as [| c rest] eqn:Hinit; [reflexivity |].
  unfold initialise at 1. now apply assign_numbered.
Qed.

Lemma falsy_or_zero (c : IssueContext) :
  truthy (context_id c) = false -> or_zero (context_id c) = 0.
Proof.
  destruct (context_id c) as [n |]; simpl; [| reflexivity].
  intro H. apply negb_false_iff, Z.eqb_eq in H. exact H.
Qed.

Lemma knownIds_fresh (contexts : list IssueContext) :
  Forall (fun c => truthy (context_id c) = false) contexts ->
  knownIds contexts = [].
Proof.
  intro Hall. unfold knownIds.
  replace (filter _ _) with (@nil Z); [reflexivity |].
  induction Hall as [| c rest Hc Hrest IH]; [reflexivity |].
  simpl. rewrite (falsy_or_zero c Hc). simpl. exact IH.
Qed.

Lemma assign_fresh (contexts : list IssueContext) :
  Forall (fun c => truthy (context_id c) = false) contexts ->
  forall base,
    map context_id (fst (assign contexts {| st_gaps := []; st_nextId := base |}))
    = map Some (counter base (List.length contexts)).
Proof.
  induction 1 as [| c rest Hc Hrest IH]; intro base; [reflexivity |].
  rewrite fst_assign_cons, Hc.
  change (next_id {| st_gaps := []; st_nextId := base |})
    with {| st_gaps := []; st_nextId := base + 1 |}.
  cbn [List.length map st_nextId]. rewrite counter_succ, IH. reflexivity.
Qed.

(** X5: when no issue holds a canonical ID yet, [initialise] numbers the
    issues 1, 2, ..., n in the order of the list. *)
Theorem initialise_fresh_numbering (contexts : list IssueContext) :
  Forall (fun c => truthy (context_id c) = false) contexts ->
  map context_id (initialise contexts)
  = map Some (counter 0 (List.length contexts)).
Proof.
  intro Hall. destruct contexts as [| c rest]; [reflexivity |].
  unfold initialise. rewrite (knownIds_fresh _ Hall).
  change (gaps_of [] (Z.of_nat (List.length (c :: rest)))) with (@nil Z).
  now apply assign_fresh.
Qed.

Lemma initialise_fresh_numbering_witness :
  map context_id
    (initialise [an_issue 7 None; an_issue 8 (Some 0); an_issue 9 None])
  = [Some 1; Some 2; Some 3].
Proof.
  apply (initialise_fresh_numbering
           [an_issue 7 None; an_issue 8 (Some 0); an_issue 9 None]).
  repeat constructor.
Defined.

(** *** The order of [knownIds] *)

Lemma sort_insert_perm (x : Z) (sorted : list Z) :
  Permutation (sort_insert x sorted) (x :: sorted).
Proof.
  induction sorted as [| y rest IH]; [reflexivity |].
  simpl. destruct (String.ltb (toString y) (toString x)); [| reflexivity].
  rewrite IH. apply perm_swap.
Qed.

Lemma default_sort_perm (array : list Z) : Permutation (default_sort array) array.
Proof.
  induction array as [| x rest IH]; [reflexivity |].
  simpl. rewrite sort_insert_perm. now constructor.
Qed.

Lemma ltb_asym (a b : string) : String.ltb a b = true -> String.ltb b a = false.
Proof.
  unfold String.ltb. rewrite (String.compare_antisym b a).
  destruct (String.compare a b); simpl; congruence.
Qed.

Lemma sort_insert_hd (y x : Z) (rest : list Z) :
  HdRel text_le y rest -> text_le y x -> HdRel text_le y (sort_insert x rest).
Proof.
  intros Hhd Hyx. destruct rest as [| z rest]; simpl; [now constructor |].
  destruct (String.ltb (toString z) (toString x)); constructor;
    [now inversion Hhd | exact Hyx].
Qed.

Lemma sort_insert_sorted (x : Z) (sorted : list Z) :
  Sorted text_le sorted -> Sorted text_le (sort_insert x sorted).
Proof.
  induction 1 as [| y rest Hs IH Hhd]; simpl; [repeat constructor |].
  destruct (String.ltb (toString y) (toString x)) eqn:Hlt.
  - constructor; [exact IH |].
    apply sort_insert_hd; [exact Hhd | now apply ltb_asym].
  - constructor; [now constructor | constructor; exact Hlt].
Qed.

(** X6: [knownIds] holds exactly the non-zero canonical IDs of the contexts,
    each as often as it occurs; and when every ID is a safe integer (at
    most [2^53 - 1] in absolute value, so that its text is its decimal
    digits) they stand in the order of their decimal texts compared as
    strings, which is the order [sort()] gives. *)
Theorem knownIds_permutation_in_text_order (contexts : list IssueContext) :
  Permutation (knownIds contexts)
    (filter (fun m => negb (m =? 0))
       (map (fun context => or_zero (context_id context)) contexts))
  /\ (Forall (fun context =>
                Z.abs (or_zero (context_id context)) <= MAX_SAFE_INTEGER)
        contexts ->
      Sorted text_le (knownIds contexts)).
Proof.
  unfold knownIds. split; [apply default_sort_perm |].
  intros _.
  induction (filter _ _) as [| x rest IH]; [constructor |].
  simpl. now apply sort_insert_sorted.
Qed.

Lemma knownIds_permutation_in_text_order_witness :
  Sorted text_le
    (knownIds [an_issue 1 (Some 9); an_issue 2 None; an_issue 3 (Some 10);
               an_issue 4 (Some 100)]).
Proof.
  apply (proj2 (knownIds_permutation_in_text_order
                  [an_issue 1 (Some 9); an_issue 2 None; an_issue 3 (Some 10);
                   an_issue 4 (Some 100)])).
  repeat constructor; discriminate.
Defined.

(** *** Gaps that suffice *)










End InitialiseMore.

(** ** More on the codecs *)

Module CodecMore.

Import Text Cheerio Codec Samples.
Import TextFacts NumeralFacts CheerioFacts CodecFacts.

Lemma split_go_nonempty (sep : string) (s : string) :
  forall skip cur, split_go sep skip cur s <> [].
Proof.
  induction s as [| c rest IH]; intros skip cur; [discriminate |].
  destruct skip as [| k]; [| apply IH].
  rewrite split_go_step. destruct (prefix sep (String c rest)); [discriminate | apply IH].
Qed.

Lemma split_go_skip (sep t : string) :
  forall rest cur,
    split_go sep (String.length t) cur (t ++ rest) = split_go sep 0 cur rest.
Proof.
  induction t as [| c t IH]; intros rest cur; [reflexivity | apply IH].
Qed.

Lemma prefix_app_inv (p : string) :
  forall s, prefix p s = true -> exists rest, s = (p ++ rest)%string.
Proof.
  induction p as [| x p IH]; intros s Hp; [now exists s |].
  destruct s as [| y s]; [discriminate |].
  rewrite prefix_cons in Hp. apply andb_true_iff in Hp as [Hxy Hp].
  apply Ascii.eqb_eq in Hxy as ->.
  destruct (IH s Hp) as [rest ->]. now exists rest.
Qed.

(** Joining the pieces of a split gives the text back. *)
Lemma join_split_go (x : ascii) (t : string) (n : nat) :
  forall s cur,
    (String.length s <= n)%nat ->
    join (String x t) (split_go (String x t) 0 cur s) = (cur ++ s)%string.
Proof.
  induction n as [| n IH]; intros s cur Hlen.
  - destruct s; [| simpl in Hlen; lia]. simpl. now rewrite append_nil_r.
  - destruct s as [| c rest]; [simpl; now rewrite append_nil_r |].
    simpl in Hlen. rewrite split_go_step.
    destruct (prefix (String x t) (String c rest)) eqn:Hp.
    + apply prefix_app_inv in Hp as [rest' Heq].
      injection Heq as -> ->.
      cbn [String.length pred]. rewrite split_go_skip.
      rewrite join_cons by apply split_go_nonempty.
      rewrite IH; [reflexivity |].
      rewrite length_append in Hlen. lia.
    + rewrite IH by lia. apply snoc_append.
Qed.

(** X8: [parseIssueBody] loses no text.  The sections it returns, joined by
    the separator, are the input when it found no metadata; when it found
    metadata, the sections joined with the block it read the metadata from
    are the input. *)
Theorem parseIssueBody_keeps_text (text : string) :
  exists tail,
    join SEPARATOR (sections (parseIssueBody text) ++ tail) = text
    /\ ((tail = [] /\ metadata (parseIssueBody text) = newMetadata)
        \/ exists block,
             tail = [block]
             /\ parseMetadata block = Some (metadata (parseIssueBody text))).
Proof.
  assert (Hjoin : join SEPARATOR (split SEPARATOR text) = text).
  { unfold split. rewrite separator_literal.
    now rewrite (join_split_go _ _ (String.length text)). }
  assert (Hne : split SEPARATOR text <> []) by apply split_go_nonempty.
  unfold parseIssueBody.
  set (pieces := split SEPARATOR text) in *.
  destruct (nonempty (List.last pieces "")).
  - destruct (parseMetadata (List.last pieces "")) as [m |] eqn:Hm.
    + exists [List.last pieces ""]. cbn [sections metadata]. split.
      * now rewrite <- (app_removelast_last "" Hne).
      * right. exists (List.last pieces ""). now split.
    + exists []. cbn [sections metadata]. rewrite app_nil_r. split; [exact Hjoin | now left].
  - exists []. cbn [sections metadata]. rewrite app_nil_r. split; [exact Hjoin | now left].
Qed.

Lemma free_of_append (c : ascii) (a b : string) :
  free_of c (a ++ b) = free_of c a && free_of c b.
Proof.
  induction a as [| d a IH]; [reflexivity |].
  simpl. rewrite IH. now rewrite andb_assoc.
Qed.

(** Every piece of a split text is free of a character the text is free
    of. *)
Lemma split_go_free (c : ascii) (sep s : string) :
  forall skip cur,
    free_of c cur = true -> free_of c s = true ->
    Forall (fun piece => free_of c piece = true) (split_go sep skip cur s).
Proof.
  induction s as [| d rest IH]; intros skip cur Hcur Hs.
  - repeat constructor. exact Hcur.
  - rewrite free_of_cons in Hs. apply andb_true_iff in Hs as [Hd Hrest].
    destruct skip as [| k]; [| now apply IH].
    rewrite split_go_step. destruct (prefix sep (String d rest)).
    + constructor; [exact Hcur | now apply IH].
    + apply IH; [| exact Hrest].
      unfold snoc. rewrite free_of_append, Hcur. simpl. now rewrite Hd.
Qed.

Lemma forall_last {A : Type} (P : A -> Prop) (l : list A) (d : A) :
  Forall P l -> P d -> P (List.last l d).
Proof.
  induction 1 as [| x l Hx Hl IH]; intro Hd; [exact Hd |].
  destruct l as [| y l]; [exact Hx | now apply IH].
Qed.

(** Text without an opening angle bracket is one run of characters. *)
Lemma run_text (s : string) :
  forall out text,
    free_of "<" s = true ->
    run (out, Data text) s = (out, Data (text ++ s)%string).
Proof.
  induction s as [| c s IH]; intros out text Hfree.
  - simpl. now rewrite append_nil_r.
  - rewrite free_of_cons in Hfree. apply andb_true_iff in Hfree as [Hc Hs].
    apply negb_true_iff in Hc.
    change (run (out, Data text) (String c s))
      with (run (data_step out text c) s).
    unfold data_step, is_char. rewrite Hc, (IH _ _ Hs), snoc_append.
    reflexivity.
Qed.

Lemma parseMetadata_text (s : string) :
  free_of "<" s = true -> parseMetadata s = None.
Proof.
  intro Hfree. unfold parseMetadata, load, tokenize.
  rewrite (run_text s _ _ Hfree). destruct s; reflexivity.
Qed.

(** X9: text with no opening angle bracket holds no metadata:
    [parseIssueBody] returns its pieces between the separators as the
    sections, all of them, and the default metadata.  The empty text gives
    one empty section. *)
Theorem parseIssueBody_plain_text (text : string) :
  free_of "<" text = true ->
  parseIssueBody text
  = {| sections := split SEPARATOR text; metadata := newMetadata |}.
Proof.
  intro Hfree. unfold parseIssueBody.
  assert (Hlast : free_of "<" (List.last (split SEPARATOR text) "") = true).
  { apply (forall_last (fun piece => free_of "<" piece = true));
      [now apply split_go_free | reflexivity]. }
  rewrite (parseMetadata_text _ Hlast).
  destruct (nonempty _); reflexivity.
Qed.

Lemma parseIssueBody_plain_text_witness :
  parseIssueBody ("Crash on start" ++ SEPARATOR ++ "Logs follow")
  = {| sections := ["Crash on start"; "Logs follow"]; metadata := newMetadata |}.
Proof.
  apply (parseIssueBody_plain_text ("Crash on start" ++ SEPARATOR ++ "Logs follow")).
  reflexivity.
Defined.

Lemma normalise_positive (raw : option js_number) :
  match normalise raw with
  | Some n => 1 <= n
  | None => True
  end.
Proof.
  destruct raw as [[| n] |]; simpl; try exact I.
  destruct (Z.ltb_spec n 1); [exact I | assumption].
Qed.

(** X10: a canonical ID that comes out of the parsers is never below 1:
    whatever the markup or the body text, the [canonicalId] of the metadata
    [parseMetadata] and [parseIssueBody] return is absent or at least 1. *)
Theorem parsed_canonical_id_positive :
  (forall markup,
      match parseMetadata markup with
      | Some m => match canonicalId m with Some n => 1 <= n | None => True end
      | None => True
      end)
  /\ (forall text,
        match canonicalId (metadata (parseIssueBody text)) with
        | Some n => 1 <= n
        | None => True
        end).
Proof.
  assert (Hmeta : forall markup,
             match parseMetadata markup with
             | Some m => match canonicalId m with Some n => 1 <= n | None => True end
             | None => True
             end).
  { intro markup. unfold parseMetadata.
    destruct (select_details_ul_li (load markup)); [exact I |].
    cbn [canonicalId]. apply normalise_positive. }
  split; [exact Hmeta |].
  intro text. unfold parseIssueBody.
  destruct (nonempty _); [| exact I].
  specialize (Hmeta (List.last (split SEPARATOR text) "")).
  destruct (parseMetadata _) as [m |]; [exact Hmeta | exact I].
Qed.

(** X11: the metadata codec round trip for every integer from
    [-(2^53 - 1)] to [2^53 - 1], the range in which the program writes a
    number digit for digit: what [printMetadata] writes for a canonical ID
    [n] is read back by [parseMetadata] as [n] when [n] is at least 1, and
    as an absent ID when it is not. *)
Theorem printMetadata_parseMetadata (n : Z) :
  Z.abs n <= MAX_SAFE_INTEGER ->
  match printMetadata (Some {| canonicalId := Some n |}) with
  | Some markup =>
      parseMetadata markup
      = Some {| canonicalId := if n <? 1 then None else Some n |}
  | None => False
  end.
Proof.
  intros _. rewrite printMetadata_fragment.
  assert (Hdq : free_of dquote (toString n) = true)
    by (apply free_of_toString; reflexivity).
  rewrite (proj1 (parseMetadata_fragment _ Hdq)), parseInt_toString.
  reflexivity.
Qed.

Lemma printMetadata_parseMetadata_witness :
  match printMetadata (Some {| canonicalId := Some 2020 |}) with
  | Some markup =>
      parseMetadata markup
      = Some {| canonicalId := if 2020 <? 1 then None else Some 2020 |}
  | None => False
  end.
Proof.
  apply (printMetadata_parseMetadata 2020). discriminate.
Defined.

End CodecMore.

(** ** More on the synchroniser *)

Module SynchroniserMore.

Import Codec Synchroniser Samples SyncSamples MoreVocabulary SynchroniserFacts.



(** When [insertMany] returns, every document went in. *)
Lemma insertMany_returned (issues : list Issue) :
  forall w w',
    insertMany issues w = (Returned tt, w') ->
    w' = with_documents w (documents (collection w) ++ issues).
Proof.
  induction issues as [| doc rest IH]; intros w w' Hrun.
  - injection Hrun as <-. now rewrite app_nil_r, with_documents_same.
  - simpl in Hrun.
    destruct (unique_index (collection w) && existsb (same_key doc) (documents (collection w)));
      [discriminate |].
    apply IH in Hrun. rewrite Hrun, with_documents_twice. simpl documents.
    now rewrite <- app_assoc.
Qed.

Lemma filter_all {A : Type} (p : A -> bool) (l : list A) :
  Forall (fun x => p x = true) l -> filter p l = l.
Proof.
  induction 1 as [| x l Hx Hl IH]; [reflexivity |].
  simpl. now rewrite Hx, IH.
Qed.

Lemma fetched_same_repo (github : GitHubAPI) (o r : string) :
  Forall (fun doc => same_repo o r doc = true) (fetched github o r).
Proof.
  eapply Forall_impl; [| apply fetched_repo].
  intros doc [Ho Hr]. unfold same_repo.
  now rewrite Ho, Hr, !String.eqb_refl.
Qed.

(** X13: a sync that returned issues is not repeated.  For a repository
    not named [experimental], when [getIssuesforRepo] has returned a
    non-empty list, calling it again in the world it left returns the same
    list and leaves that world as it is: no listing is asked of the
    tracker, no index is asked for and no document is written. *)
Theorem second_sync_is_a_cache_hit
        (github : GitHubAPI) (repository : Repository) (w : World)
        (contexts : list IssueContext) :
  repo_name repository <> "experimental" ->
  fst (getIssuesforRepo github repository w) = Returned contexts ->
  contexts <> [] ->
  getIssuesforRepo github repository (snd (getIssuesforRepo github repository w))
  = (Returned contexts, snd (getIssuesforRepo github repository w)).
Proof.
  intros Hname Hfirst Hne.
  pose proof (getIssuesforRepo_steps github repository w Hname) as Hsteps.
  cbv zeta in Hsteps.
  set (o := owner_login repository) in *.
  set (r := repo_name repository) in *.
  set (existing := filter (same_repo o r) (documents (collection w))) in *.
  set (issues := fetched github o r) in *.
  assert (Hhit : forall w1 docs,
             filter (same_repo o r) (documents (collection w1)) = docs ->
             docs <> [] ->
             getIssuesforRepo github repository w1
             = (Returned (map (in_context github) docs), w1)).
  { intros w1 docs Hdocs Hsome.
    rewrite (getIssuesforRepo_steps github repository w1 Hname). cbv zeta.
    fold o r. rewrite Hdocs.
    destruct (Nat.eqb (List.length docs) 0) eqn:Hlen;
      [apply length_zero_nil in Hlen; contradiction | reflexivity]. }
  destruct (Nat.eqb (List.length existing) 0) eqn:Hlen.
  - apply length_zero_nil in Hlen. cbn [negb] in Hsteps.
    destruct (Nat.eqb (List.length issues) 0) eqn:Hlen'.
    + rewrite Hsteps in Hfirst. injection Hfirst as <-. contradiction.
    + destruct (insertMany issues (after_miss w o r (documents (collection w))))
        as [[[] | reason] w''] eqn:Hins.
      * rewrite Hsteps in *. cbn [fst snd] in *. injection Hfirst as <-.
        apply insertMany_returned in Hins. subst w''.
        apply Hhit.
        -- cbn [with_documents after_miss collection documents].
           rewrite filter_app. fold existing. rewrite Hlen. simpl.
           apply filter_all, fetched_same_repo.
        -- intro Hnil. apply length_zero_nil in Hnil. congruence.
      * rewrite Hsteps in Hfirst. discriminate.
  - cbn [negb] in Hsteps. rewrite Hsteps in *. cbn [fst snd] in *.
    injection Hfirst as <-. apply Hhit; [reflexivity |].
    intro Hnil. apply length_zero_nil in Hnil. congruence.
Qed.

Lemma second_sync_is_a_cache_hit_witness :
  getIssuesforRepo a_tracker
    {| owner_login := "TokTok"; repo_name := "c-toxcore" |}
    (snd (getIssuesforRepo a_tracker
            {| owner_login := "TokTok"; repo_name := "c-toxcore" |}
            (a_world [a_document "py-toxcore-c" 9])))
  = (Returned (map (in_context a_tracker) (fetched a_tracker "TokTok" "c-toxcore")),
     snd (getIssuesforRepo a_tracker
            {| owner_login := "TokTok"; repo_name := "c-toxcore" |}
            (a_world [a_document "py-toxcore-c" 9]))).
Proof.
  apply (second_sync_is_a_cache_hit a_tracker
           {| owner_login := "TokTok"; repo_name := "c-toxcore" |}
           (a_world [a_document "py-toxcore-c" 9])).
  - discriminate.
  - vm_compute. reflexivity.
  - discriminate.
Defined.

(** *** The unique key *)

Lemma same_key_eq (a b : Issue) : same_key a b = true <-> key a = key b.
Proof.
  unfold same_key, same_repo, key.
  rewrite !andb_true_iff, !String.eqb_eq, Z.eqb_eq.
  split.
  - intros [[-> ->] ->]. reflexivity.
  - intros [= -> -> ->]. repeat split.
Qed.

Lemma nodup_key_filter (p : Issue -> bool) (docs : list Issue) :
  NoDup (map key docs) -> NoDup (map key (filter p docs)).
Proof.
  induction docs as [| d docs IH]; intro H; [constructor |].
  inversion H as [| ? ? Hnotin Hrest]; subst.
  simpl. destruct (p d); [| now apply IH].
  simpl. constructor; [| now apply IH].
  intro Hin. apply Hnotin.
  apply in_map_iff in Hin as [d' [Hk Hd']].
  apply filter_In in Hd' as [Hd' _].
  apply in_map_iff. now exists d'.
Qed.

(** Under the unique index [insertMany] keeps the keys distinct, whether
    it returns or throws. *)
Lemma insertMany_keeps_keys (issues : list Issue) :
  forall w,
    unique_index (collection w) = true ->
    NoDup (map key (documents (collection w))) ->
    NoDup (map key (documents (collection (snd (insertMany issues w))))).
Proof.
  induction issues as [| doc rest IH]; intros w Hindex Hkeys; [exact Hkeys |].
  simpl. rewrite Hindex. simpl andb.
  destruct (existsb (same_key doc) (documents (collection w))) eqn:Hdup;
    [exact Hkeys |].
  apply IH; [exact Hindex |].
  simpl documents. rewrite map_app. simpl.
  apply NoDup_app; repeat split.
  - exact Hkeys.
  - repeat constructor. intros [].
  - intros k Hk [<- | []].
    apply in_map_iff in Hk as [d [Hkd Hd]].
    assert (Htrue : existsb (same_key doc) (documents (collection w)) = true).
    { apply existsb_exists. exists d. split; [exact Hd |].
      apply same_key_eq. now symmetry. }
    congruence.
Qed.

(** X14: [getIssuesforRepo] keeps the keys of the cache distinct.  If no
    two documents share [(owner, repo, issueId)] before the call, none do
    after it, whatever the tracker lists and whether the call returns or
    throws. *)
Theorem getIssuesforRepo_keeps_keys_unique
        (github : GitHubAPI) (repository : Repository) (w : World) :
  NoDup (map key (documents (collection w))) ->
  NoDup (map key (documents (collection (snd (getIssuesforRepo github repository w))))).
Proof.
  intro Hkeys.
  rewrite getIssuesforRepo_steps_all. cbv zeta.
  set (o := owner_login repository).
  set (r := repo_name repository).
  set (w0 := if String.eqb r "experimental" then _ else w).
  assert (Hkeys0 : NoDup (map key (documents (collection w0)))).
  { subst w0. destruct (String.eqb r "experimental"); [| exact Hkeys].
    cbn [with_documents collection documents]. now apply nodup_key_filter. }
  destruct (negb (Nat.eqb (List.length _) 0)); [exact Hkeys0 |].
  destruct (Nat.eqb (List.length (fetched github o r)) 0); [exact Hkeys0 |].
  pose proof (insertMany_keeps_keys (fetched github o r)
                (after_miss w0 o r (documents (collection w0)))
                eq_refl Hkeys0) as Hins.
  destruct (insertMany _ _) as [[[] | reason] w'']; exact Hins.
Qed.

Lemma getIssuesforRepo_keeps_keys_unique_witness :
  NoDup (map key
           (documents
              (collection
                 (snd (getIssuesforRepo a_tracker
                         {| owner_login := "TokTok"; repo_name := "c-toxcore" |}
                         (a_world [a_document "c-toxcore" 3; a_document "c-toxcore" 4])))))).
Proof.
  apply (getIssuesforRepo_keeps_keys_unique a_tracker
           {| owner_login := "TokTok"; repo_name := "c-toxcore" |}
           (a_world [a_document "c-toxcore" 3; a_document "c-toxcore" 4])).
  repeat constructor; simpl; intuition discriminate.
Defined.

(** X15: what [getIssuesforRepo] returns belongs to the repository asked
    for: every context carries the client given and an issue whose owner
    and repository are those of the argument. *)
Theorem getIssuesforRepo_returns_own_issues
        (client : GitHubAPI) (repository : Repository) (w : World) :
  match fst (getIssuesforRepo client repository w) with
  | Returned contexts =>
      Forall (fun c => github c = client
                       /\ owner (issue c) = owner_login repository
                       /\ repo (issue c) = repo_name repository) contexts
  | Thrown _ => True
  end.
Proof.
  rewrite getIssuesforRepo_steps_all. cbv zeta.
  set (o := owner_login repository).
  set (r := repo_name repository).
  set (w0 := if String.eqb r "experimental" then _ else w).
  assert (Hown : forall docs,
             Forall (fun doc => owner doc = o /\ repo doc = r) docs ->
             Forall (fun c => github c = client
                              /\ owner (issue c) = o /\ repo (issue c) = r)
               (map (in_context client) docs)).
  { intros docs Hdocs. apply Forall_map.
    eapply Forall_impl; [| exact Hdocs]. intros doc [Ho Hr]. now repeat split. }
  destruct (negb (Nat.eqb (List.length _) 0)).
  - cbn [fst]. apply Hown, Forall_forall. intros doc Hdoc.
    apply filter_In in Hdoc as [_ Hdoc]. unfold same_repo in Hdoc.
    apply andb_true_iff in Hdoc as [Ho Hr].
    now apply String.eqb_eq in Ho, Hr.
  - destruct (Nat.eqb (List.length (fetched client o r)) 0); [constructor |].
    destruct (insertMany _ _) as [[[] | reason] w'']; cbn [fst]; [| exact I].
    apply Hown, fetched_repo.
Qed.

End SynchroniserMore.

(** ** [flatten] and the redirect handler *)

Module HelpersMore.

Import Text Orchestrator Redirector Samples NumeralFacts.

Lemma flatten_from {T : Type} (array : list (list T)) :
  forall res, fold_left (fun res x => res ++ x) array res = res ++ List.concat array.
Proof.
  induction array as [| x rest IH]; intro res; simpl.
  - now rewrite app_nil_r.
  - now rewrite IH, app_assoc.
Qed.

(** X16: [flatten] is the concatenation of the inner arrays, in the order
    of the outer array and with the order inside each kept: an element is
    in the result exactly when it is in one of the inner arrays, and the
    result of two outer arrays put together is the two results put
    together. *)
Theorem flatten_concatenates {T : Type} :
  (forall array : list (list T), flatten array = List.concat array)
  /\ (forall (array : list (list T)) (x : T),
        In x (flatten array) <-> exists inner, In inner array /\ In x inner)
  /\ (forall a b : list (list T), flatten (a ++ b) = flatten a ++ flatten b).
Proof.
  assert (H : forall array : list (list T), flatten array = List.concat array).
  { intro array. unfold flatten. now rewrite flatten_from. }
  split; [exact H |]. split.
  - intros array x. rewrite H, in_concat. split.
    + intros [inner [Hin Hx]]. now exists inner.
    + intros [inner [Hin Hx]]. now exists inner.
  - intros a b. rewrite !H. apply concat_app.
Qed.

Lemma parseInt_letter (c : ascii) (rest : string) :
  is_alpha c = true -> parseInt (String c rest) = NaN.
Proof.
  intro Hc. unfold parseInt.
  assert (Hcode : 65 <= code c <= 90 \/ 97 <= code c <= 122).
  { unfold is_alpha, is_upper, is_lower, between in Hc.
    apply orb_true_iff in Hc as [Hc | Hc];
      apply andb_true_iff in Hc as [H1 H2];
      apply Z.leb_le in H1, H2; lia. }
  assert (Hws : str_whitespace c = false).
  { unfold str_whitespace, between.
    destruct (Z.leb_spec 9 (code c)); destruct (Z.leb_spec (code c) 13);
      destruct (Z.eqb_spec (code c) 32); simpl; try reflexivity; exfalso; lia. }
  assert (Hminus : Ascii.eqb c "-" = false).
  { apply Ascii.eqb_neq. intros ->. change (code "-") with 45 in Hcode. lia. }
  assert (Hplus : Ascii.eqb c "+" = false).
  { apply Ascii.eqb_neq. intros ->. change (code "+") with 43 in Hcode. lia. }
  assert (Hzero : Ascii.eqb c "0" = false).
  { apply Ascii.eqb_neq. intros ->. change (code "0") with 48 in Hcode. lia. }
  assert (Hdigit : digit_value 10 c = None).
  { unfold digit_value, is_digit, is_lower, is_upper, between.
    destruct (Z.leb_spec 48 (code c)); destruct (Z.leb_spec (code c) 57);
      destruct (Z.leb_spec 97 (code c)); destruct (Z.leb_spec (code c) 122);
      destruct (Z.leb_spec 65 (code c)); destruct (Z.leb_spec (code c) 90);
      simpl; try reflexivity; try (exfalso; lia);
      match goal with
      | |- (if ?d <? 10 then _ else _) = None =>
          destruct (Z.ltb_spec d 10); [lia | reflexivity]
      end. }
  cbn [trim_start]. rewrite Hws. cbn [strip_sign]. rewrite Hminus, Hplus.
  unfold strip_radix. destruct rest as [| x rest].
  - now rewrite Hdigit.
  - rewrite Hzero. cbn [andb]. now rewrite Hdigit.
Qed.

(** X17: the redirect handler.  For every integer [n] the path made of a
    slash and the decimal text of [n] is answered with status 301 and the
    location of the one fixed issue, whatever [n] is.  A path that is
    empty, is one character long, or has a letter as its second character
    is answered with status 404, no location, and a text that ends in the
    path. *)
Theorem redirect_answers :
  (forall n : Z,
      redirect (String "/" (toString n))
      = {| status := 301;
           location := Some issueUrl;
           sent := ("Redirecting to " ++ issueUrl)%string |})
  /\ (forall url : string,
        (String.length url <= 1)%nat
        \/ (exists slash c rest, url = String slash (String c rest) /\ is_alpha c = true) ->
        redirect url
        = {| status := 404;
             location := None;
             sent := ("Invalid request to bug redirector: " ++ url)%string |}).
Proof.
  split.
  - intro n. unfold redirect. cbn [substr1]. now rewrite parseInt_toString.
  - intros url [Hshort | [slash [c [rest [-> Hc]]]]].
    + destruct url as [| a [| b url]]; [reflexivity | reflexivity |].
      simpl in Hshort. lia.
    + unfold redirect. cbn [substr1]. now rewrite (parseInt_letter c rest Hc).
Qed.

Lemma redirect_answers_witness :
  redirect "/bugs"
  = {| status := 404;
       location := None;
       sent := "Invalid request to bug redirector: /bugs" |}.
Proof.
  apply (proj2 redirect_answers "/bugs").
  right. exists "/"%char, "b"%char, "ugs". split; reflexivity.
Defined.

End HelpersMore.
